(** * libime: the history bigram learner and the pinyin lattice-node factory

    A shallow embedding of [src/libime/historybigram.cpp] and of
    [src/libime/pinyin/pinyindecoder.cpp], with the properties the
    specification states about them.

    Conventions of the embedding.
    - [std::string] is [string]; a [char] of a stream is an [ascii].
    - [DATrie<int32_t>] is a finite map [gmap string Z].  The counters are
      [int32_t]; [v + 1] overflows only at [2^31 - 1], where the C++ program
      has undefined behaviour, so the model describes the runs in which no
      counter gets there and keeps the counters in [Z].
    - [size_] (a [size_t]) is kept in [Z]: it is shown below to equal the
      length of [recent_] in every reachable state, so it cannot wrap.
    - a method that mutates [*this] is a function from the old state to the
      new one; the pool behind [next_] is threaded explicitly.
    - [float] is IEEE 754 binary32 with round-to-nearest-even, computed with
      the operations of [SpecFloat] at precision 24 and maximal exponent 128;
      every operation rounds to binary32 (no extended intermediate
      precision).  [std::log10] is a parameter of [score]. *)

From Stdlib Require Import ZArith List String Ascii Bool Lia.
From Stdlib Require Import Floats.SpecFloat.
From stdpp Require Import base option list gmap strings.

Local Open Scope Z_scope.

(** ** [float]: IEEE 754 binary32 *)

Module Float32.

Definition prec : Z := 24.
Definition emax : Z := 128.

Abbreviation float := spec_float.

Definition add : float → float → float := SFadd prec emax.
Definition mul : float → float → float := SFmul prec emax.
Definition div : float → float → float := SFdiv prec emax.

(** [x == y] and [x >= y]; false when an operand is NaN. *)
Definition eqb : float → float → bool := SFeqb.
Definition geb (x y : float) : bool := SFleb y x.

(** The conversion of an integer ([int], [size_t]) to [float]: the nearest
    float, ties to even. *)
Definition of_Z (z : Z) : float := binary_normalize prec emax z 0 false.

(** The conversion of a [float] to [int]: the fractional part is
    discarded (truncation toward zero).  For a NaN, an infinity or a value
    outside the range of [int] the C++ conversion is undefined; the model
    gives 0 for the first two and the unwrapped integer for the last. *)
Definition to_int (x : float) : Z :=
  match x with
  | S754_finite s m e =>
      let v := if 0 <=? e then Z.pos m * 2 ^ e else Z.pos m / 2 ^ (- e) in
      if s then - v else v
  | _ => 0
  end.

(** The literals of the source. *)
Definition zero : float := S754_zero false.                  (* 0.0f  *)
Definition one : float := S754_finite false 8388608 (-23).   (* 1.0   *)
Definition half : float := S754_finite false 8388608 (-24).  (* 0.5f  *)
Definition c0_68 : float := S754_finite false 11408507 (-24). (* 0.68f *)
Definition c0_32 : float := S754_finite false 10737418 (-25). (* 0.32f *)
Definition c0_05 : float := S754_finite false 13421773 (-28). (* 0.05f *)
Definition minus_five : float := S754_finite true 10485760 (-21). (* -5 *)

End Float32.

(** ** The double-array trie *)

Module DATrie.

(** Modelled from the spec: [DATrie<int32_t>] ([datrie.h] is not in src).
    The spec describes it as a dictionary from byte-string keys to 32-bit
    signed integers with [exactMatchSearch(key) -> V | NOT_FOUND],
    [set(key, v)], [update(key, f)] (the absent value is treated as 0),
    [erase(key)] and [clear()]. *)
Abbreviation t := (gmap string Z).

(** [NO_VALUE], the result of a search that finds nothing. *)
Definition NO_VALUE : option Z := None.

Definition exactMatchSearch (trie : t) (key : string) : option Z :=
  trie !! key.

Definition set (key : string) (v : Z) (trie : t) : t :=
  <[key := v]> trie.

Definition update (key : string) (f : Z → Z) (trie : t) : t :=
  <[key := f (default 0 (trie !! key))]> trie.

Definition erase (key : string) (trie : t) : t :=
  delete key trie.

Definition clear : t := ∅.

End DATrie.

(** ** Streams *)

Module Stream.

(** A stream is a sequence of [char]s.  Modelled from the spec:
    [DATrie::save] and [DATrie::load] ([datrie.h] is not in src) write and
    read a trie in a format that is opaque to the callers; the model keeps a
    saved trie in the stream as one opaque chunk, which [load] reads back. *)
Inductive chunk : Type :=
| Char (c : ascii)
| Blob (trie : gmap string Z).

Abbreviation t := (list chunk).

Definition char_of_Z (z : Z) : ascii := ascii_of_N (Z.to_N (z mod 256)).
Definition Z_of_char (c : ascii) : Z := Z.of_N (N_of_ascii c).

(** [out.write(s.data(), s.size())] *)
Definition write (s : string) : t := map Char (list_ascii_of_string s).

(** [in.read(buffer, n)]: the next [n] chars, or a failure when the stream
    does not hold them. *)
Fixpoint read (n : nat) (input : t) : option (list ascii * t) :=
  match n with
  | O => Some ([], input)
  | S n =>
      match input with
      | Char c :: input =>
          match read n input with
          | Some (cs, input) => Some (c :: cs, input)
          | None => None
          end
      | _ => None
      end
  end.

(** Modelled from the spec: [marshall] and [unmarshall] of a [uint32_t]
    ([utils.h] is not in src); the spec's file layout has every integer
    little-endian on 4 bytes. *)
Definition marshall (n : Z) : t :=
  [Char (char_of_Z n); Char (char_of_Z (n / 256));
   Char (char_of_Z (n / 65536)); Char (char_of_Z (n / 16777216))].

Definition unmarshall (input : t) : option (Z * t) :=
  match read 4 input with
  | Some ([b0; b1; b2; b3], input) =>
      Some (Z_of_char b0 + 256 * Z_of_char b1 + 65536 * Z_of_char b2
            + 16777216 * Z_of_char b3, input)
  | _ => None
  end.

Definition trie_save (trie : gmap string Z) : t := [Blob trie].

Definition trie_load (input : t) : option (gmap string Z * t) :=
  match input with
  | Blob trie :: input => Some (trie, input)
  | _ => None
  end.

End Stream.

(** ** One tier: [HistoryBigramPool] *)

Record HistoryBigramPool : Type := mkPool {
  maxSize_ : Z;
  size_ : Z;
  recent_ : list (list string);
  unigram_ : gmap string Z;
  bigram_ : gmap string Z
}.

(** [HistoryBigramPool(maxSize, next)]: every member starts empty. *)
Definition newPool (maxSize : Z) : HistoryBigramPool :=
  mkPool maxSize 0 [] DATrie.clear DATrie.clear.

Definition with_unigram (p : HistoryBigramPool) (u : gmap string Z) : HistoryBigramPool :=
  mkPool (maxSize_ p) (size_ p) (recent_ p) u (bigram_ p).

Definition with_bigram (p : HistoryBigramPool) (b : gmap string Z) : HistoryBigramPool :=
  mkPool (maxSize_ p) (size_ p) (recent_ p) (unigram_ p) b.

Definition with_recent (p : HistoryBigramPool) (r : list (list string)) : HistoryBigramPool :=
  mkPool (maxSize_ p) (size_ p) r (unigram_ p) (bigram_ p).

Definition with_size (p : HistoryBigramPool) (n : Z) : HistoryBigramPool :=
  mkPool (maxSize_ p) n (recent_ p) (unigram_ p) (bigram_ p).

(** [ss << s1 << "|" << s2], the key of a pair in the bigram trie. *)
Definition bigramKey (s1 s2 : string) : string :=
  (s1 +:+ "|" +:+ s2)%string.

(** [clear] *)
Definition clear (p : HistoryBigramPool) : HistoryBigramPool :=
  mkPool (maxSize_ p) 0 [] DATrie.clear DATrie.clear.

(** [decFreq] and [incFreq] *)
Definition decFreq (s : string) (trie : gmap string Z) : gmap string Z :=
  match DATrie.exactMatchSearch trie s with
  | None => trie
  | Some v =>
      let v := v - 1 in
      if v <=? 0 then DATrie.erase s trie else DATrie.set s v trie
  end.

Definition incFreq (s : string) (trie : gmap string Z) : gmap string Z :=
  DATrie.update s (λ v, v + 1) trie.

Definition decUnigram (s : string) (p : HistoryBigramPool) : HistoryBigramPool :=
  with_unigram p (decFreq s (unigram_ p)).

Definition incUnigram (s : string) (p : HistoryBigramPool) : HistoryBigramPool :=
  with_unigram p (incFreq s (unigram_ p)).

Definition decBigram (s1 s2 : string) (p : HistoryBigramPool) : HistoryBigramPool :=
  with_bigram p (decFreq (bigramKey s1 s2) (bigram_ p)).

Definition incBigram (s1 s2 : string) (p : HistoryBigramPool) : HistoryBigramPool :=
  with_bigram p (incFreq (bigramKey s1 s2) (bigram_ p)).

(** [unigramFreq] and [bigramFreq] of a pool *)
Definition unigramFreq (p : HistoryBigramPool) (s : string) : Z :=
  match DATrie.exactMatchSearch (unigram_ p) s with
  | None => 0
  | Some v => v
  end.

Definition bigramFreq (p : HistoryBigramPool) (s1 s2 : string) : Z :=
  match DATrie.exactMatchSearch (bigram_ p) (bigramKey s1 s2) with
  | None => 0
  | Some v => v
  end.

Definition size (p : HistoryBigramPool) : Z := size_ p.

(** The [for] loop of [remove], then [size_--]. *)
Fixpoint remove_words (sentence : list string) (p : HistoryBigramPool) : HistoryBigramPool :=
  match sentence with
  | [] => p
  | w :: rest =>
      let p := decUnigram w p in
      let p := match rest with
               | next :: _ => decBigram w next p
               | [] => p
               end in
      remove_words rest p
  end.

Definition remove (sentence : list string) (p : HistoryBigramPool) : HistoryBigramPool :=
  let p := remove_words sentence p in
  with_size p (size_ p - 1).

(** The [for] loop of [add]; [newSentence] ends as a copy of [sentence]. *)
Fixpoint add_words (sentence : list string) (p : HistoryBigramPool) : HistoryBigramPool :=
  match sentence with
  | [] => p
  | w :: rest =>
      let p := incUnigram w p in
      let p := match rest with
               | next :: _ => incBigram w next p
               | [] => p
               end in
      add_words rest p
  end.

(** The end of [add]: the [for] loop, [recent_.push_front(newSentence)] and
    [size_++]. *)
Definition insert (sentence : list string) (p : HistoryBigramPool) : HistoryBigramPool :=
  let p := add_words sentence p in
  let p := with_recent p (sentence :: recent_ p) in
  with_size p (size_ p + 1).

(** [recent_.back()] and [recent_.pop_back()] *)
Definition back (r : list (list string)) : option (list string) := last r.

Definition pop_back (p : HistoryBigramPool) : HistoryBigramPool :=
  with_recent p (removelast (recent_ p)).

Section Chain.

(** The pool behind [next_] and its [add], [save] and [load].  For the last
    pool of a chain [next_] is [nullptr] and the constructor asserts
    [maxSize_ = 0], so that none of them is called. *)
Context {Next : Type}
  (next_add : list string → Next → Next)
  (next_save : Next → Stream.t)
  (next_load : Stream.t → Next → option Stream.t * Next).

(** [while (recent_.size() >= maxSize_) { ... }].  Every round pops one
    sentence, so the loop ends within [recent_.size()] rounds: [evict] is
    run with that many rounds of fuel (see [evict_done]). *)
Fixpoint evict (fuel : nat) (p : HistoryBigramPool) (next : Next) : HistoryBigramPool * Next :=
  match fuel with
  | O => (p, next)
  | S fuel =>
      if maxSize_ p <=? Z.of_nat (length (recent_ p)) then
        match back (recent_ p) with
        | Some old =>
            let next := next_add old next in
            let p := remove old p in
            let p := pop_back p in
            evict fuel p next
        | None => (p, next)
        end
      else (p, next)
  end.

(** [add] *)
Definition add (sentence : list string) (p : HistoryBigramPool) (next : Next)
  : HistoryBigramPool * Next :=
  match sentence with
  | [] => (p, next)
  | _ :: _ =>
      let '(p, next) :=
        if maxSize_ p =? 0 then (p, next)
        else evict (length (recent_ p)) p next in
      (insert sentence p, next)
  end.

(** [save]: the stream that is written.  (Writing to the output stream does
    not fail in the model.) *)
Definition save_word (s : string) : Stream.t :=
  Stream.marshall (Z.of_nat (String.length s) mod 2 ^ 32) ++ Stream.write s.

Definition save_sentence (sentence : list string) : Stream.t :=
  Stream.marshall (Z.of_nat (length sentence) mod 2 ^ 32)
    ++ flat_map save_word sentence.

Definition save (p : HistoryBigramPool) (next : Next) : Stream.t :=
  if maxSize_ p =? 0 then
    Stream.trie_save (unigram_ p) ++ Stream.trie_save (bigram_ p)
  else
    Stream.marshall (Z.of_nat (length (recent_ p)) mod 2 ^ 32)
      ++ flat_map save_sentence (rev (recent_ p))
      ++ next_save next.

(** [load].  The result is the rest of the stream, or [None] when
    [throw_if_io_fail] throws; the pools are returned as the exception
    leaves them. *)
Fixpoint load_words (size : nat) (input : Stream.t) (sentence : list string)
  : option (list string * Stream.t) :=
  match size with
  | O => Some (sentence, input)
  | S size =>
      match Stream.unmarshall input with
      | None => None
      | Some (len, input) =>
          match Stream.read (Z.to_nat len) input with
          | None => None
          | Some (buffer, input) =>
              load_words size input (sentence ++ [string_of_list_ascii buffer])
          end
      end
  end.

Definition load_sentence (input : Stream.t) : option (list string * Stream.t) :=
  match Stream.unmarshall input with
  | None => None
  | Some (size, input) => load_words (Z.to_nat size) input []
  end.

Fixpoint load_sentences (count : nat) (input : Stream.t)
    (p : HistoryBigramPool) (next : Next)
  : option Stream.t * HistoryBigramPool * Next :=
  match count with
  | O => (Some input, p, next)
  | S count =>
      match load_sentence input with
      | None => (None, p, next)
      | Some (sentence, input) =>
          let '(p, next) := add sentence p next in
          load_sentences count input p next
      end
  end.

Definition load (input : Stream.t) (p : HistoryBigramPool) (next : Next)
  : option Stream.t * HistoryBigramPool * Next :=
  let p := clear p in
  if maxSize_ p =? 0 then
    match Stream.trie_load input with
    | None => (None, p, next)
    | Some (u, input) =>
        let p := with_unigram p u in
        match Stream.trie_load input with
        | None => (None, p, next)
        | Some (b, input) => (Some input, with_bigram p b, next)
        end
    end
  else
    match Stream.unmarshall input with
    | None => (None, p, next)
    | Some (count, input) =>
        match load_sentences (Z.to_nat count) input p next with
        | (None, p, next) => (None, p, next)
        | (Some input, p, next) =>
            let '(r, next) := next_load input next in
            (r, p, next)
        end
    end.

End Chain.

(** ** The two tiers of [HistoryBigramPrivate] *)

Record HistoryBigramPrivate : Type := mkPrivate {
  finalPool_ : HistoryBigramPool;
  recentPool_ : HistoryBigramPool;
  unknown_ : Float32.float
}.

(** [decay = 0.05f] *)
Definition decay : Float32.float := Float32.c0_05.

(** [HistoryBigramPrivate()]: [finalPool_] has [maxSize = 0] and
    [next = nullptr], [recentPool_{8192, &finalPool_}], [unknown_ = -5]. *)
Definition newHistoryBigram : HistoryBigramPrivate :=
  mkPrivate (newPool 0) (newPool 8192) Float32.minus_five.

(** The methods of [finalPool_], the last pool of the chain. *)
Definition no_next_add (_ : list string) (u : unit) : unit := u.
Definition no_next_save (_ : unit) : Stream.t := [].
Definition no_next_load (input : Stream.t) (u : unit) : option Stream.t * unit :=
  (Some input, u).

Definition final_add (sentence : list string) (f : HistoryBigramPool) : HistoryBigramPool :=
  fst (add no_next_add sentence f tt).

Definition final_save (f : HistoryBigramPool) : Stream.t :=
  save no_next_save f tt.

Definition final_load (input : Stream.t) (f : HistoryBigramPool)
  : option Stream.t * HistoryBigramPool :=
  let '(r, f, _) := load no_next_add no_next_load input f tt in (r, f).

(** [HistoryBigramPrivate::unigramFreq], [bigramFreq] and [size] *)
Definition Private_unigramFreq (d : HistoryBigramPrivate) (s : string) : Float32.float :=
  Float32.add (Float32.of_Z (unigramFreq (recentPool_ d) s))
              (Float32.mul (Float32.of_Z (unigramFreq (finalPool_ d) s)) decay).

Definition Private_bigramFreq (d : HistoryBigramPrivate) (s1 s2 : string) : Float32.float :=
  Float32.add (Float32.of_Z (bigramFreq (recentPool_ d) s1 s2))
              (Float32.mul (Float32.of_Z (bigramFreq (finalPool_ d) s1 s2)) decay).

Definition Private_size (d : HistoryBigramPrivate) : Float32.float :=
  Float32.add (Float32.of_Z (size (recentPool_ d)))
              (Float32.mul (Float32.of_Z (size (finalPool_ d))) decay).

(** ** [HistoryBigram] *)

Definition HistoryBigram_setUnknown (unknown : Float32.float) (d : HistoryBigramPrivate)
  : HistoryBigramPrivate :=
  mkPrivate (finalPool_ d) (recentPool_ d) unknown.

(** [HistoryBigram::add(const std::vector<std::string> &)] *)
Definition HistoryBigram_add (sentence : list string) (d : HistoryBigramPrivate)
  : HistoryBigramPrivate :=
  let '(r, f) := add final_add sentence (recentPool_ d) (finalPool_ d) in
  mkPrivate f r (unknown_ d).

Definition HistoryBigram_isUnknown (d : HistoryBigramPrivate) (v : string) : bool :=
  (String.length v =? 0)%nat
  || Float32.eqb (Private_unigramFreq d v) (Float32.of_Z 0).

(** The probability [pr] of [HistoryBigram::score], before the three-way
    test. *)
Definition score_pr (d : HistoryBigramPrivate) (prev cur : string) : Float32.float :=
  let uf0 := Float32.to_int (Private_unigramFreq d prev) in
  let bf := Float32.to_int (Private_bigramFreq d prev cur) in
  let uf1 := Float32.to_int (Private_unigramFreq d cur) in
  let pr := Float32.zero in
  let pr := Float32.add pr
              (Float32.div (Float32.mul Float32.c0_68 (Float32.of_Z bf))
                           (Float32.add (Float32.of_Z uf0) Float32.half)) in
  let pr := Float32.add pr
              (Float32.div (Float32.mul Float32.c0_32 (Float32.of_Z uf1))
                           (Float32.add (Private_size d) Float32.half)) in
  pr.

Section Score.

(** [std::log10] on [float], from the C++ standard library. *)
Variable log10 : Float32.float → Float32.float.

(** [HistoryBigram::score] *)
Definition HistoryBigram_score (d : HistoryBigramPrivate) (prev cur : string)
  : Float32.float :=
  let pr := score_pr d prev cur in
  if Float32.geb pr Float32.one then Float32.of_Z 0
  else if Float32.eqb pr (Float32.of_Z 0) then unknown_ d
  else log10 pr.

End Score.

Definition HistoryBigram_load (input : Stream.t) (d : HistoryBigramPrivate)
  : option Stream.t * HistoryBigramPrivate :=
  let '(r, p, f) := load final_add final_load input (recentPool_ d) (finalPool_ d) in
  (r, mkPrivate f p (unknown_ d)).

Definition HistoryBigram_save (d : HistoryBigramPrivate) : Stream.t :=
  save final_save (recentPool_ d) (finalPool_ d).

Definition HistoryBigram_clear (d : HistoryBigramPrivate) : HistoryBigramPrivate :=
  mkPrivate (clear (finalPool_ d)) (clear (recentPool_ d)) (unknown_ d).

(** The state after a sequence of [add] calls, the first of the list first. *)
Definition adds (ss : list (list string)) (d : HistoryBigramPrivate) : HistoryBigramPrivate :=
  fold_left (λ d s, HistoryBigram_add s d) ss d.


(** The formula of the specification for the probability, in the same
    [float] arithmetic: the blended counts [U], [B] and [N] enter it as they
    are, without a conversion to [int]. *)
Definition blended_pr (d : HistoryBigramPrivate) (prev cur : string) : Float32.float :=
  let U := Private_unigramFreq d in
  let B := Private_bigramFreq d in
  let N := Private_size d in
  Float32.add
    (Float32.add Float32.zero
       (Float32.div (Float32.mul Float32.c0_68 (B prev cur))
                    (Float32.add (U prev) Float32.half)))
    (Float32.div (Float32.mul Float32.c0_32 (U cur))
                 (Float32.add N Float32.half)).

Definition blended_score (log10 : Float32.float → Float32.float)
    (d : HistoryBigramPrivate) (prev cur : string) : Float32.float :=
  let p := blended_pr d prev cur in
  if Float32.geb p Float32.one then Float32.of_Z 0
  else if Float32.eqb p (Float32.of_Z 0) then unknown_ d
  else log10 p.

(** ** Counting words and pairs in a sentence *)

(** The number of positions of [sentence] that hold [w]. *)
Fixpoint occurrences (w : string) (sentence : list string) : Z :=
  match sentence with
  | [] => 0
  | x :: rest => (if decide (x = w) then 1 else 0) + occurrences w rest
  end.

(** The number of positions of [sentence] at which [w1] is followed by [w2]. *)
Fixpoint pair_occurrences (w1 w2 : string) (sentence : list string) : Z :=
  match sentence with
  | [] => 0
  | x :: rest =>
      match rest with
      | y :: _ => if decide (x = w1 ∧ y = w2) then 1 else 0
      | [] => 0
      end + pair_occurrences w1 w2 rest
  end.

(** The number of consecutive pairs of [sentence] stored under the key [k]. *)
Fixpoint key_occurrences (k : string) (sentence : list string) : Z :=
  match sentence with
  | [] => 0
  | x :: rest =>
      match rest with
      | y :: _ => if decide (bigramKey x y = k) then 1 else 0
      | [] => 0
      end + key_occurrences k rest
  end.

Definition total (f : list string → Z) (l : list (list string)) : Z :=
  fold_right (λ s acc, f s + acc) 0 l.

(** A word without the separator ["|"]. *)
Fixpoint no_bar (s : string) : Prop :=
  match s with
  | EmptyString => True
  | String c s => c ≠ "|"%char ∧ no_bar s
  end.

(** What a trie of counters holds. *)
Definition freq (trie : gmap string Z) (k : string) : Z := default 0 (trie !! k).

Definition positive (trie : gmap string Z) : Prop :=
  ∀ k v, trie !! k = Some v → 0 < v.

(** A pool whose counters count the sentences of its [recent_] list. *)
Record counted (p : HistoryBigramPool) : Prop := mkCounted {
  counted_size : size_ p = Z.of_nat (length (recent_ p));
  counted_nonempty : Forall (λ s, s ≠ []) (recent_ p);
  counted_unigram_pos : positive (unigram_ p);
  counted_bigram_pos : positive (bigram_ p);
  counted_unigram : ∀ w, freq (unigram_ p) w = total (occurrences w) (recent_ p);
  counted_bigram : ∀ k, freq (bigram_ p) k = total (key_occurrences k) (recent_ p)
}.

(** The states of a [HistoryBigram] that [add] keeps. *)
Record well_formed (d : HistoryBigramPrivate) : Prop := mkWellFormed {
  wf_recent : counted (recentPool_ d);
  wf_final : counted (finalPool_ d);
  wf_recent_max : maxSize_ (recentPool_ d) = 8192;
  wf_final_max : maxSize_ (finalPool_ d) = 0;
  wf_bound : Z.of_nat (length (recent_ (recentPool_ d))) ≤ 8192
}.

(** The capacity of the recent pool, as a number of sentences. *)
Definition capacity : nat := Z.to_nat 8192.

(** A sentence that [save] writes and [load] reads back: its length and the
    lengths of its words fit a [uint32_t]. *)
Definition fits (sentence : list string) : Prop :=
  Z.of_nat (length sentence) < 2 ^ 32
  ∧ Forall (λ w, Z.of_nat (String.length w) < 2 ^ 32) sentence.

(** ** The lattice-node factory of the pinyin decoder *)

Module PinyinDecoder.

(** A [SegmentGraphNode] is known by its address. *)
Definition SegmentGraphNode : Type := Z.
Definition SegmentGraphPath : Type := list SegmentGraphNode.
Definition WordIndex : Type := Z.

Record SegmentGraphBase : Type := mkGraph {
  start : SegmentGraphNode
}.

Record PinyinLatticeNodePrivate : Type := mkData {
  encodedPinyin_ : string
}.

Section Node.

(** The state of the language model. *)
Context {State : Type}.

Record PinyinLatticeNode : Type := mkNode {
  word : string;
  idx : WordIndex;
  path : SegmentGraphPath;
  state : State;
  cost : Float32.float;
  d_ptr : option PinyinLatticeNodePrivate
}.

(** [PinyinLatticeNode::encodedPinyin] *)
Definition encodedPinyin (n : PinyinLatticeNode) : string :=
  match d_ptr n with
  | None => ""
  | Some d => encodedPinyin_ d
  end.

(** [model->isUnknown(idx, word)] of [LanguageModelBase]. *)
Class LanguageModelBase : Type := {
  isUnknown : WordIndex → string → bool
}.

(** [PinyinDecoder::createLatticeNodeImpl]; [None] is [nullptr].
    [path.front()] of an empty path is undefined in C++; the model then
    takes the test on the path to fail. *)
Definition createLatticeNodeImpl (graph : SegmentGraphBase)
    (model : LanguageModelBase) (word : string) (idx : WordIndex)
    (path : SegmentGraphPath) (state : State) (cost : Float32.float)
    (data : option PinyinLatticeNodePrivate) (onlyPath : bool)
  : option PinyinLatticeNode :=
  let pinyinData := data in
  if isUnknown idx word
     && (match pinyinData with
         | Some d => (String.length (encodedPinyin_ d) =? 2)%nat
         | None => false
         end
         && match path with
            | front :: _ => negb (front =? start graph)
            | [] => false
            end
         && negb onlyPath)
  then None
  else Some (mkNode word idx path state cost pinyinData).

End Node.

Arguments PinyinLatticeNode : clear implicits.

End PinyinDecoder.

(** The states the examples below are run on: one sentence [["b"]], then
    8192 sentences [["x"]], so that [["b"]] is the one sentence of the final
    pool. *)
Definition aged_sentences : list (list string) :=
  ["b"%string] :: replicate capacity ["x"%string].

Definition aged_history : HistoryBigramPrivate :=
  adds aged_sentences newHistoryBigram.

(** [aged_history], saved and loaded into a fresh [HistoryBigram]. *)
Definition reloaded_history : option Stream.t * HistoryBigramPrivate :=
  HistoryBigram_load (HistoryBigram_save aged_history) newHistoryBigram.

(** One case of the factory's test: both sides of the equivalence are decided
    by the hypotheses at hand. *)
Ltac prune_case :=
  split; [split; [intros ?; try discriminate; repeat split; auto
                 | intros (? & ? & ? & ?); simpl in *; try congruence; try discriminate]
         | intros Hn; try reflexivity; exfalso; apply Hn; repeat split; auto].

(** * Properties *)

(** ** The literals *)

(** The [float] literals are the decimal constants of the source, correctly
    rounded. *)
Lemma literals_rounded :
  Float32.c0_68 = Float32.div (Float32.of_Z 68) (Float32.of_Z 100)
  ∧ Float32.c0_32 = Float32.div (Float32.of_Z 32) (Float32.of_Z 100)
  ∧ Float32.c0_05 = Float32.div (Float32.of_Z 5) (Float32.of_Z 100)
  ∧ Float32.half = Float32.div (Float32.of_Z 1) (Float32.of_Z 2)
  ∧ Float32.one = Float32.of_Z 1
  ∧ Float32.zero = Float32.of_Z 0
  ∧ Float32.minus_five = Float32.of_Z (-5).
Proof. repeat split; reflexivity. Qed.

(** ** The lattice-node factory *)

Section Factory.

Import PinyinDecoder.
Context {State : Type} (model : LanguageModelBase).

(** C8.  The factory returns no node exactly when the model reports the
    word unknown, the candidate's encoded pinyin has length 2, the path does
    not start at the start node of the graph and [onlyPath] is false; in
    every other case it returns a node with the given word, index, path,
    state, cost and data. *)
Theorem createLatticeNodeImpl_prunes_exactly
    (graph : SegmentGraphBase) (word : string) (idx : WordIndex)
    (path : SegmentGraphPath) (state : State) (cost : Float32.float)
    (data : option PinyinLatticeNodePrivate) (onlyPath : bool) :
  path ≠ [] →
  let candidate := mkNode word idx path state cost data in
  let pruned :=
    isUnknown idx word = true
    ∧ String.length (encodedPinyin candidate) = 2%nat
    ∧ hd_error path ≠ Some (start graph)
    ∧ onlyPath = false in
  (createLatticeNodeImpl graph model word idx path state cost data onlyPath = None
   ↔ pruned)
  ∧ (¬ pruned →
     createLatticeNodeImpl graph model word idx path state cost data onlyPath
     = Some candidate).
Proof.
  intros Hpath candidate pruned. subst pruned candidate.
  unfold createLatticeNodeImpl, encodedPinyin; simpl.
  destruct path as [|front rest]; [done|]; simpl.
  destruct (isUnknown idx word); simpl; [|prune_case].
  destruct data as [[enc]|]; simpl; [|prune_case].
  destruct (Nat.eqb_spec (String.length enc) 2); simpl; [|prune_case].
  destruct (Z.eqb_spec front (start graph)); simpl; [subst; prune_case|].
  destruct onlyPath; simpl; [prune_case|].
  assert (Some front ≠ Some (start graph)) by congruence.
  prune_case.
Qed.

End Factory.

(** A run of C8: a known word on a path that starts at the start node. *)
Lemma createLatticeNodeImpl_prunes_exactly_witness :
  let model := PinyinDecoder.Build_LanguageModelBase (λ _ _, true) in
  let graph := PinyinDecoder.mkGraph 0 in
  let data := Some (PinyinDecoder.mkData "ab") in
  [1] ≠ [] ∧
  PinyinDecoder.createLatticeNodeImpl graph model "w" 7 [1] tt Float32.zero data false
  = None.
Proof.
  intros model graph data. split; [done|].
  apply (createLatticeNodeImpl_prunes_exactly model graph "w"%string 7 [1] tt
           Float32.zero data false); [done|].
  repeat split; done.
Defined.

(** ** The key of a pair *)

(** C9.  [bigramFreq] depends on the concatenated key alone: two pairs with
    the same key have the same count in every pool, as have the pairs
    [("a", "b|c")] and [("a|b", "c")] after [add(["a|b", "c"])]. *)
Theorem bigramFreq_by_key :
  (∀ (p : HistoryBigramPool) (s1 s2 t1 t2 : string),
      bigramKey s1 s2 = bigramKey t1 t2 →
      bigramFreq p s1 s2 = bigramFreq p t1 t2)
  ∧ (∀ d : HistoryBigramPrivate,
        let d' := HistoryBigram_add ["a|b"; "c"]%string d in
        bigramFreq (recentPool_ d') "a" "b|c" = bigramFreq (recentPool_ d') "a|b" "c"
        ∧ bigramFreq (finalPool_ d') "a" "b|c" = bigramFreq (finalPool_ d') "a|b" "c").
Proof.
  assert (H : ∀ (p : HistoryBigramPool) (s1 s2 t1 t2 : string),
             bigramKey s1 s2 = bigramKey t1 t2 →
             bigramFreq p s1 s2 = bigramFreq p t1 t2).
  { intros p s1 s2 t1 t2 Hkey. unfold bigramFreq. by rewrite Hkey. }
  split; [exact H|].
  intros d d'. split; apply H; reflexivity.
Qed.

Lemma bigramFreq_by_key_witness :
  bigramKey "a" "b|c" = bigramKey "a|b" "c"
  ∧ bigramFreq (recentPool_ (HistoryBigram_add ["a|b"; "c"]%string newHistoryBigram)) "a" "b|c"
    = bigramFreq (recentPool_ (HistoryBigram_add ["a|b"; "c"]%string newHistoryBigram)) "a|b" "c".
Proof.
  split; [reflexivity|].
  apply (proj1 bigramFreq_by_key). reflexivity.
Defined.

(** ** The empty sentence *)

Lemma HistoryBigram_add_nil (d : HistoryBigramPrivate) :
  HistoryBigram_add [] d = d.
Proof. by destruct d. Qed.

(** C10.  [add] of the empty sentence changes nothing: the state is the same,
    and so are the sizes, the sentence lists, the counts of both pools and
    every later [score] and [isUnknown]. *)
Theorem add_empty_sentence_noop (d : HistoryBigramPrivate) :
  let d' := HistoryBigram_add [] d in
  d' = d
  ∧ size (recentPool_ d') = size (recentPool_ d)
  ∧ size (finalPool_ d') = size (finalPool_ d)
  ∧ recent_ (recentPool_ d') = recent_ (recentPool_ d)
  ∧ recent_ (finalPool_ d') = recent_ (finalPool_ d)
  ∧ (∀ w, unigramFreq (recentPool_ d') w = unigramFreq (recentPool_ d) w
          ∧ unigramFreq (finalPool_ d') w = unigramFreq (finalPool_ d) w)
  ∧ (∀ w1 w2, bigramFreq (recentPool_ d') w1 w2 = bigramFreq (recentPool_ d) w1 w2
              ∧ bigramFreq (finalPool_ d') w1 w2 = bigramFreq (finalPool_ d) w1 w2)
  ∧ (∀ log10 prev cur,
        HistoryBigram_score log10 d' prev cur = HistoryBigram_score log10 d prev cur)
  ∧ (∀ w, HistoryBigram_isUnknown d' w = HistoryBigram_isUnknown d w)
  ∧ (∀ ss, adds ss d' = adds ss d).
Proof.
  intros d'. subst d'. rewrite HistoryBigram_add_nil. repeat split.
Qed.

(** ** Counters *)

Lemma unigramFreq_freq (p : HistoryBigramPool) (w : string) :
  unigramFreq p w = freq (unigram_ p) w.
Proof.
  unfold unigramFreq, freq, DATrie.exactMatchSearch.
  by destruct (unigram_ p !! w).
Qed.

Lemma bigramFreq_freq (p : HistoryBigramPool) (w1 w2 : string) :
  bigramFreq p w1 w2 = freq (bigram_ p) (bigramKey w1 w2).
Proof.
  unfold bigramFreq, freq, DATrie.exactMatchSearch.
  by destruct (bigram_ p !! bigramKey w1 w2).
Qed.

Lemma freq_incFreq (s : string) (trie : gmap string Z) (k : string) :
  freq (incFreq s trie) k = freq trie k + (if decide (s = k) then 1 else 0).
Proof.
  unfold freq, incFreq, DATrie.update.
  destruct (decide (s = k)) as [->|Hne].
  - by rewrite lookup_insert_eq.
  - rewrite lookup_insert_ne by done. lia.
Qed.

Lemma positive_incFreq (s : string) (trie : gmap string Z) :
  positive trie → positive (incFreq s trie).
Proof.
  intros Hpos k v. unfold incFreq, DATrie.update.
  destruct (decide (s = k)) as [->|Hne].
  - rewrite lookup_insert_eq. intros [= <-].
    destruct (trie !! k) as [v0|] eqn:Hk; simpl; [|lia].
    specialize (Hpos k v0 Hk). lia.
  - rewrite lookup_insert_ne by done. apply Hpos.
Qed.

Lemma freq_decFreq (s : string) (trie : gmap string Z) (k : string) :
  positive trie →
  freq (decFreq s trie) k
  = if decide (s = k) then Z.max 0 (freq trie k - 1) else freq trie k.
Proof.
  intros Hpos. unfold freq, decFreq, DATrie.exactMatchSearch, DATrie.erase, DATrie.set.
  destruct (trie !! s) as [v|] eqn:Hs.
  - specialize (Hpos s v Hs).
    destruct (Z.leb_spec (v - 1) 0); destruct (decide (s = k)) as [->|Hne].
    + rewrite lookup_delete_eq, Hs. simpl. lia.
    + by rewrite lookup_delete_ne.
    + rewrite lookup_insert_eq, Hs. simpl. lia.
    + by rewrite lookup_insert_ne.
  - destruct (decide (s = k)) as [->|Hne]; [|done].
    rewrite Hs. simpl. lia.
Qed.

Lemma positive_decFreq (s : string) (trie : gmap string Z) :
  positive trie → positive (decFreq s trie).
Proof.
  intros Hpos k v. unfold decFreq, DATrie.exactMatchSearch, DATrie.erase, DATrie.set.
  destruct (trie !! s) as [v0|] eqn:Hs; [|apply Hpos].
  destruct (Z.leb_spec (v0 - 1) 0).
  - intros Hk. apply lookup_delete_Some in Hk as [_ Hk]. by apply (Hpos k).
  - destruct (decide (s = k)) as [->|Hne].
    + rewrite lookup_insert_eq. intros [= <-]. lia.
    + rewrite lookup_insert_ne by done. apply Hpos.
Qed.

Lemma occurrences_nonneg (w : string) (sentence : list string) :
  0 ≤ occurrences w sentence.
Proof. induction sentence as [|x rest IH]; simpl; [lia|]. case_decide; lia. Qed.

Lemma key_occurrences_nonneg (k : string) (sentence : list string) :
  0 ≤ key_occurrences k sentence.
Proof.
  induction sentence as [|x rest IH]; simpl; [lia|].
  destruct rest as [|y rest']; [lia|]. case_decide; lia.
Qed.

Lemma occurrences_absent (w : string) (sentence : list string) :
  w ∉ sentence → occurrences w sentence = 0.
Proof.
  induction sentence as [|x rest IH]; simpl; [done|].
  intros Hnot. apply not_elem_of_cons in Hnot as [Hne Hrest].
  rewrite decide_False by done. rewrite IH by done. lia.
Qed.

(** ** The loops of [add] and [remove] *)

Lemma add_words_frame (sentence : list string) (p : HistoryBigramPool) :
  maxSize_ (add_words sentence p) = maxSize_ p
  ∧ size_ (add_words sentence p) = size_ p
  ∧ recent_ (add_words sentence p) = recent_ p.
Proof.
  revert p. induction sentence as [|w rest IH]; intros p; simpl; [done|].
  destruct rest as [|y rest'].
  - exact (IH (incUnigram w p)).
  - exact (IH (incBigram w y (incUnigram w p))).
Qed.

Lemma add_words_unigram (sentence : list string) (p : HistoryBigramPool) (w : string) :
  freq (unigram_ (add_words sentence p)) w
  = freq (unigram_ p) w + occurrences w sentence.
Proof.
  revert p. induction sentence as [|x rest IH]; intros p; simpl; [lia|].
  destruct rest as [|y rest']; rewrite IH; simpl; rewrite freq_incFreq; lia.
Qed.

Lemma add_words_bigram (sentence : list string) (p : HistoryBigramPool) (k : string) :
  freq (bigram_ (add_words sentence p)) k
  = freq (bigram_ p) k + key_occurrences k sentence.
Proof.
  revert p. induction sentence as [|x rest IH]; intros p; simpl; [lia|].
  destruct rest as [|y rest']; rewrite IH; simpl; [lia|].
  rewrite freq_incFreq. lia.
Qed.

Lemma add_words_positive (sentence : list string) (p : HistoryBigramPool) :
  positive (unigram_ p) → positive (bigram_ p) →
  positive (unigram_ (add_words sentence p)) ∧ positive (bigram_ (add_words sentence p)).
Proof.
  revert p. induction sentence as [|x rest IH]; intros p Hu Hb; simpl; [done|].
  destruct rest as [|y rest']; apply IH; simpl; auto using positive_incFreq.
Qed.

Lemma remove_words_frame (sentence : list string) (p : HistoryBigramPool) :
  maxSize_ (remove_words sentence p) = maxSize_ p
  ∧ size_ (remove_words sentence p) = size_ p
  ∧ recent_ (remove_words sentence p) = recent_ p.
Proof.
  revert p. induction sentence as [|w rest IH]; intros p; simpl; [done|].
  destruct rest as [|y rest'].
  - exact (IH (decUnigram w p)).
  - exact (IH (decBigram w y (decUnigram w p))).
Qed.

Lemma remove_words_positive (sentence : list string) (p : HistoryBigramPool) :
  positive (unigram_ p) → positive (bigram_ p) →
  positive (unigram_ (remove_words sentence p))
  ∧ positive (bigram_ (remove_words sentence p)).
Proof.
  revert p. induction sentence as [|x rest IH]; intros p Hu Hb; simpl; [done|].
  destruct rest as [|y rest']; apply IH; simpl; auto using positive_decFreq.
Qed.

Lemma remove_words_cons (x : string) (rest : list string) (p : HistoryBigramPool) :
  ∃ p', remove_words (x :: rest) p = remove_words rest p'
        ∧ unigram_ p' = decFreq x (unigram_ p)
        ∧ bigram_ p' = match rest with
                       | y :: _ => decFreq (bigramKey x y) (bigram_ p)
                       | [] => bigram_ p
                       end.
Proof. destruct rest; eexists; repeat split; reflexivity. Qed.

Lemma freq_nonneg (trie : gmap string Z) (k : string) :
  positive trie → 0 ≤ freq trie k.
Proof.
  intros Hpos. unfold freq. destruct (trie !! k) as [v|] eqn:Hk; simpl; [|lia].
  specialize (Hpos k v Hk). lia.
Qed.

Lemma remove_words_unigram (sentence : list string) (p : HistoryBigramPool) (w : string) :
  positive (unigram_ p) →
  freq (unigram_ (remove_words sentence p)) w
  = Z.max 0 (freq (unigram_ p) w - occurrences w sentence).
Proof.
  revert p. induction sentence as [|x rest IH]; intros p Hu.
  - simpl. pose proof (freq_nonneg _ w Hu). lia.
  - pose proof (occurrences_nonneg w rest).
    destruct (remove_words_cons x rest p) as (p' & -> & Hp' & _).
    rewrite IH by (rewrite Hp'; auto using positive_decFreq).
    rewrite Hp', freq_decFreq by done. simpl. case_decide; lia.
Qed.

Lemma remove_words_bigram (sentence : list string) (p : HistoryBigramPool) (k : string) :
  positive (bigram_ p) →
  freq (bigram_ (remove_words sentence p)) k
  = Z.max 0 (freq (bigram_ p) k - key_occurrences k sentence).
Proof.
  revert p. induction sentence as [|x rest IH]; intros p Hb.
  - simpl. pose proof (freq_nonneg _ k Hb). lia.
  - pose proof (key_occurrences_nonneg k rest).
    destruct (remove_words_cons x rest p) as (p' & -> & _ & Hp').
    rewrite IH by (rewrite Hp'; destruct rest; auto using positive_decFreq).
    rewrite Hp'. simpl. destruct rest as [|y rest']; [lia|].
    rewrite freq_decFreq by done. case_decide; lia.
Qed.

(** ** [add] below the capacity *)

Lemma evict_below {Next : Type} (next_add : list string → Next → Next)
    (fuel : nat) (p : HistoryBigramPool) (next : Next) :
  Z.of_nat (length (recent_ p)) < maxSize_ p →
  evict next_add fuel p next = (p, next).
Proof.
  intros Hlt. destruct fuel as [|fuel]; simpl; [done|].
  destruct (Z.leb_spec (maxSize_ p) (Z.of_nat (length (recent_ p)))); [lia|done].
Qed.

Lemma add_below {Next : Type} (next_add : list string → Next → Next)
    (sentence : list string) (p : HistoryBigramPool) (next : Next) :
  sentence ≠ [] →
  Z.of_nat (length (recent_ p)) < maxSize_ p ∨ maxSize_ p = 0 →
  add next_add sentence p next = (insert sentence p, next).
Proof.
  intros Hne Hlt. unfold add. destruct sentence as [|w rest]; [done|].
  destruct (Z.eqb_spec (maxSize_ p) 0) as [|Hmax]; [done|].
  rewrite evict_below; [done|]. destruct Hlt; [done|lia].
Qed.

Lemma HistoryBigram_add_below (sentence : list string) (d : HistoryBigramPrivate) :
  sentence ≠ [] →
  Z.of_nat (length (recent_ (recentPool_ d))) < maxSize_ (recentPool_ d) →
  HistoryBigram_add sentence d
  = mkPrivate (finalPool_ d) (insert sentence (recentPool_ d)) (unknown_ d).
Proof.
  intros Hne Hlt. unfold HistoryBigram_add.
  rewrite add_below by auto. reflexivity.
Qed.

Lemma insert_unigramFreq (sentence : list string) (p : HistoryBigramPool) (w : string) :
  unigramFreq (insert sentence p) w = unigramFreq p w + occurrences w sentence.
Proof. rewrite !unigramFreq_freq. unfold insert; simpl. apply add_words_unigram. Qed.

Lemma insert_bigramFreq (sentence : list string) (p : HistoryBigramPool) (w1 w2 : string) :
  bigramFreq (insert sentence p) w1 w2
  = bigramFreq p w1 w2 + key_occurrences (bigramKey w1 w2) sentence.
Proof. rewrite !bigramFreq_freq. unfold insert; simpl. apply add_words_bigram. Qed.

(** ** Keys of words without the separator *)

Lemma bigramKey_nil (y : string) : bigramKey "" y = String "|" y.
Proof. reflexivity. Qed.

Lemma bigramKey_cons (c : ascii) (x y : string) :
  bigramKey (String c x) y = String c (bigramKey x y).
Proof. reflexivity. Qed.

Lemma bigramKey_has_bar (a b : string) : ¬ no_bar (bigramKey a b).
Proof.
  induction a as [|c a IH].
  - rewrite bigramKey_nil. simpl. by intros [? _].
  - rewrite bigramKey_cons. simpl. by intros [_ ?].
Qed.

Lemma bigramKey_inj (x y w1 w2 : string) :
  no_bar x → no_bar y →
  bigramKey x y = bigramKey w1 w2 → x = w1 ∧ y = w2.
Proof.
  revert w1.
  induction x as [|c x IH]; intros w1 Hx Hy Hkey; destruct w1 as [|c' w1];
    rewrite ?bigramKey_nil, ?bigramKey_cons in Hkey.
  - injection Hkey as Hkey. by subst.
  - injection Hkey as Hc Hkey. subst. destruct (bigramKey_has_bar w1 w2 Hy).
  - injection Hkey as Hc Hkey. subst. by destruct Hx.
  - injection Hkey as Hc Hkey. subst. destruct Hx as [_ Hx].
    destruct (IH w1 Hx Hy Hkey) as [-> ->]. done.
Qed.

Lemma key_occurrences_pairs (w1 w2 : string) (sentence : list string) :
  Forall no_bar sentence →
  key_occurrences (bigramKey w1 w2) sentence = pair_occurrences w1 w2 sentence.
Proof.
  induction 1 as [|x rest Hx Hrest IH]; simpl; [done|].
  rewrite IH. f_equal. destruct Hrest as [|y rest' Hy _]; [done|].
  destruct (decide (x = w1 ∧ y = w2)) as [[-> ->]|Hne].
  - by rewrite decide_True.
  - rewrite decide_False; [done|]. intros Hkey. by apply bigramKey_inj in Hkey.
Qed.

(** For any sentence, the count of a pair grows by the number of consecutive
    pairs of the sentence that are stored under its key. *)
Lemma add_counts_keys (d : HistoryBigramPrivate) (W : list string) (w1 w2 : string) :
  Z.of_nat (length (recent_ (recentPool_ d))) < maxSize_ (recentPool_ d) →
  bigramFreq (recentPool_ (HistoryBigram_add W d)) w1 w2
  = bigramFreq (recentPool_ d) w1 w2 + key_occurrences (bigramKey w1 w2) W.
Proof.
  intros Hlt. destruct W as [|x W].
  - rewrite HistoryBigram_add_nil. simpl. lia.
  - rewrite HistoryBigram_add_below by done. simpl. apply insert_bigramFreq.
Qed.

(** C7.  Below the capacity of the recent pool, [add(W)] increases
    [unigramFreq(w)] by the number of occurrences of [w] in [W], for every
    word list [W], and leaves the counts of the other words and the final
    pool as they are.  It increases [bigramFreq(w1, w2)] by the number of
    consecutive pairs of [W] that are stored under the key of [(w1, w2)];
    when the words of [W] do not contain the separator ["|"], as the data
    model assumes, this is the number of positions of [W] at which [w1] is
    followed by [w2], and the count of no other pair changes. *)
Theorem add_counts_words_and_pairs (d : HistoryBigramPrivate) (W : list string) :
  Z.of_nat (length (recent_ (recentPool_ d))) < maxSize_ (recentPool_ d) →
  let d' := HistoryBigram_add W d in
  (∀ w, unigramFreq (recentPool_ d') w
        = unigramFreq (recentPool_ d) w + occurrences w W)
  ∧ (∀ w, w ∉ W → unigramFreq (recentPool_ d') w = unigramFreq (recentPool_ d) w)
  ∧ (∀ w1 w2, bigramFreq (recentPool_ d') w1 w2
              = bigramFreq (recentPool_ d) w1 w2
                + key_occurrences (bigramKey w1 w2) W)
  ∧ (Forall no_bar W →
     (∀ w1 w2, bigramFreq (recentPool_ d') w1 w2
               = bigramFreq (recentPool_ d) w1 w2 + pair_occurrences w1 w2 W)
     ∧ (∀ w1 w2, pair_occurrences w1 w2 W = 0 →
                 bigramFreq (recentPool_ d') w1 w2 = bigramFreq (recentPool_ d) w1 w2))
  ∧ finalPool_ d' = finalPool_ d.
Proof.
  intros Hlt d'.
  assert (Hu : ∀ w, unigramFreq (recentPool_ d') w
                    = unigramFreq (recentPool_ d) w + occurrences w W).
  { intros w. subst d'. destruct W as [|x W].
    - rewrite HistoryBigram_add_nil. simpl. lia.
    - rewrite HistoryBigram_add_below by done. simpl. apply insert_unigramFreq. }
  assert (Hk : ∀ w1 w2, bigramFreq (recentPool_ d') w1 w2
                        = bigramFreq (recentPool_ d) w1 w2
                          + key_occurrences (bigramKey w1 w2) W).
  { intros w1 w2. subst d'. by apply add_counts_keys. }
  split_and!; try done.
  - intros w Hw. rewrite Hu, occurrences_absent by done. lia.
  - intros Hbar.
    assert (Hb : ∀ w1 w2, bigramFreq (recentPool_ d') w1 w2
                          = bigramFreq (recentPool_ d) w1 w2 + pair_occurrences w1 w2 W).
    { intros w1 w2. by rewrite Hk, key_occurrences_pairs. }
    split; [exact Hb|]. intros w1 w2 H0. rewrite Hb, H0. lia.
  - subst d'. destruct W as [|x W].
    + by rewrite HistoryBigram_add_nil.
    + by rewrite HistoryBigram_add_below.
Qed.

Lemma add_counts_words_and_pairs_witness :
  let d := HistoryBigram_add ["a"; "b"; "a"; "b"]%string newHistoryBigram in
  unigramFreq (recentPool_ d) "a" = 2 ∧ bigramFreq (recentPool_ d) "a" "b" = 2.
Proof.
  assert (Hlt : Z.of_nat (length (recent_ (recentPool_ newHistoryBigram)))
                < maxSize_ (recentPool_ newHistoryBigram)) by (simpl; lia).
  assert (Hbar : Forall no_bar ["a"; "b"; "a"; "b"]%string)
    by (repeat constructor; discriminate).
  pose proof (add_counts_words_and_pairs newHistoryBigram
                ["a"; "b"; "a"; "b"]%string Hlt) as (Hu & _ & _ & Hb & _).
  split; [apply (Hu "a"%string) | apply (proj1 (Hb Hbar) "a"%string "b"%string)].
Defined.

(** What the separator inside a word does: after [add(["a|b", "c"])] the
    pair [("a", "b|c")], which is not in the sentence, has the count 1,
    since it has the key of the pair [("a|b", "c")]. *)
Lemma add_counts_alias :
  let d := newHistoryBigram in
  let W := ["a|b"; "c"]%string in
  pair_occurrences "a" "b|c" W = 0
  ∧ key_occurrences (bigramKey "a" "b|c") W = 1
  ∧ bigramFreq (recentPool_ d) "a" "b|c" = 0
  ∧ bigramFreq (recentPool_ (HistoryBigram_add W d)) "a" "b|c" = 1.
Proof. vm_compute. by split_and!. Qed.

(** ** Pools that count their sentences *)

Lemma total_app (f : list string → Z) (l1 l2 : list (list string)) :
  total f (l1 ++ l2) = total f l1 + total f l2.
Proof. induction l1 as [|s l1 IH]; simpl; lia. Qed.

Lemma total_nonneg (f : list string → Z) (l : list (list string)) :
  (∀ s, 0 ≤ f s) → 0 ≤ total f l.
Proof. intros Hf. induction l as [|s l IH]; simpl; [lia|]. specialize (Hf s). lia. Qed.

Lemma positive_empty : positive (∅ : gmap string Z).
Proof. intros k v Hk. by rewrite lookup_empty in Hk. Qed.

Lemma counted_newPool (maxSize : Z) : counted (newPool maxSize).
Proof.
  split; simpl; try done; try apply positive_empty.
Qed.

Lemma counted_clear (p : HistoryBigramPool) : counted (clear p).
Proof. exact (counted_newPool (maxSize_ p)). Qed.

Lemma insert_frame (sentence : list string) (p : HistoryBigramPool) :
  maxSize_ (insert sentence p) = maxSize_ p
  ∧ size_ (insert sentence p) = size_ p + 1
  ∧ recent_ (insert sentence p) = sentence :: recent_ p.
Proof.
  destruct (add_words_frame sentence p) as (Hm & Hs & Hr).
  unfold insert; simpl. by rewrite Hm, Hs, Hr.
Qed.

Lemma counted_insert (sentence : list string) (p : HistoryBigramPool) :
  counted p → sentence ≠ [] → counted (insert sentence p).
Proof.
  intros [Hsize Hne Hu Hb Hcu Hcb] Hs.
  destruct (insert_frame sentence p) as (_ & Hs' & Hr').
  destruct (add_words_positive sentence p Hu Hb) as [Hu' Hb'].
  split.
  - rewrite Hs', Hr', Hsize. simpl. lia.
  - rewrite Hr'. by constructor.
  - exact Hu'.
  - exact Hb'.
  - intros w. rewrite Hr'. simpl.
    change (unigram_ (insert sentence p)) with (unigram_ (add_words sentence p)).
    rewrite add_words_unigram, Hcu. lia.
  - intros k. rewrite Hr'. simpl.
    change (bigram_ (insert sentence p)) with (bigram_ (add_words sentence p)).
    rewrite add_words_bigram, Hcb. lia.
Qed.

Lemma evicted_frame (old : list string) (p : HistoryBigramPool) :
  maxSize_ (pop_back (remove old p)) = maxSize_ p
  ∧ size_ (pop_back (remove old p)) = size_ p - 1
  ∧ recent_ (pop_back (remove old p)) = removelast (recent_ p)
  ∧ unigram_ (pop_back (remove old p)) = unigram_ (remove_words old p)
  ∧ bigram_ (pop_back (remove old p)) = bigram_ (remove_words old p).
Proof.
  destruct (remove_words_frame old p) as (Hm & Hs & Hr).
  unfold pop_back, remove; simpl. by rewrite Hm, Hs, Hr.
Qed.

Lemma counted_evicted (p : HistoryBigramPool) (rest : list (list string))
    (old : list string) :
  counted p → recent_ p = rest ++ [old] →
  counted (pop_back (remove old p)) ∧ recent_ (pop_back (remove old p)) = rest.
Proof.
  intros [Hsize Hne Hu Hb Hcu Hcb] Hrecent.
  destruct (evicted_frame old p) as (_ & Hs' & Hr' & Hu' & Hb').
  destruct (remove_words_positive old p Hu Hb) as [Hup Hbp].
  rewrite Hrecent, removelast_last in Hr'.
  split; [|done]. split.
  - rewrite Hs', Hr', Hsize, Hrecent, length_app. simpl. lia.
  - rewrite Hr'. rewrite Hrecent in Hne. by apply Forall_app in Hne as [? _].
  - by rewrite Hu'.
  - by rewrite Hb'.
  - intros w. rewrite Hu', Hr', remove_words_unigram, Hcu, Hrecent, total_app by done.
    simpl. pose proof (total_nonneg (occurrences w) rest (occurrences_nonneg w)). lia.
  - intros k. rewrite Hb', Hr', remove_words_bigram, Hcb, Hrecent, total_app by done.
    simpl. pose proof (total_nonneg (key_occurrences k) rest (key_occurrences_nonneg k)).
    lia.
Qed.

(** ** [add] at the capacity *)

Lemma evict_full {Next : Type} (next_add : list string → Next → Next)
    (p : HistoryBigramPool) (next : Next) (rest : list (list string))
    (old : list string) :
  recent_ p = rest ++ [old] →
  maxSize_ p = Z.of_nat (length (recent_ p)) →
  evict next_add (length (recent_ p)) p next
  = (pop_back (remove old p), next_add old next).
Proof.
  intros Hrecent Hmax.
  destruct (evicted_frame old p) as (Hm' & _ & Hr' & _).
  rewrite Hrecent, removelast_last in Hr'.
  assert (Hlen : length (recent_ p) = S (length rest))
    by (rewrite Hrecent, length_app; simpl; lia).
  rewrite Hlen. simpl.
  destruct (Z.leb_spec (maxSize_ p) (Z.of_nat (length (recent_ p)))); [|lia].
  unfold back. rewrite Hrecent, last_snoc.
  apply evict_below. rewrite Hm', Hr'. lia.
Qed.

(** The fuel of [evict] is enough: when the loop of [add] is entered
    ([maxSize_] is not 0), it is left with [recent_.size() < maxSize_]. *)
Lemma evict_done {Next : Type} (next_add : list string → Next → Next)
    (fuel : nat) (p : HistoryBigramPool) (next : Next) :
  0 < maxSize_ p → (length (recent_ p) ≤ fuel)%nat →
  let p' := fst (evict next_add fuel p next) in
  Z.of_nat (length (recent_ p')) < maxSize_ p' ∧ maxSize_ p' = maxSize_ p.
Proof.
  revert p next. induction fuel as [|fuel IH]; intros p next Hmax Hfuel; simpl.
  - split; [|done]. assert (length (recent_ p) = 0%nat) as -> by lia. simpl. lia.
  - destruct (Z.leb_spec (maxSize_ p) (Z.of_nat (length (recent_ p)))); [|simpl; lia].
    assert (Hne : recent_ p ≠ []).
    { intros Hnil. rewrite Hnil in *. simpl in *. lia. }
    destruct (exists_last Hne) as (rest & x & Hrecent).
    unfold back. rewrite Hrecent, last_snoc.
    destruct (evicted_frame x p) as (Hm' & _ & Hr' & _).
    rewrite Hrecent, removelast_last in Hr'.
    rewrite Hrecent, length_app in Hfuel. simpl in Hfuel.
    destruct (IH (pop_back (remove x p)) (next_add x next)) as [H1 H2].
    + by rewrite Hm'.
    + rewrite Hr'. lia.
    + split; [done|]. by rewrite H2.
Qed.

Lemma final_add_insert (sentence : list string) (f : HistoryBigramPool) :
  sentence ≠ [] → maxSize_ f = 0 → final_add sentence f = insert sentence f.
Proof.
  intros Hne Hmax. unfold final_add. rewrite add_below; auto.
Qed.

Lemma HistoryBigram_add_full (sentence : list string) (d : HistoryBigramPrivate)
    (rest : list (list string)) (old : list string) :
  sentence ≠ [] →
  recent_ (recentPool_ d) = rest ++ [old] →
  maxSize_ (recentPool_ d) = Z.of_nat (length (recent_ (recentPool_ d))) →
  HistoryBigram_add sentence d
  = mkPrivate (final_add old (finalPool_ d))
              (insert sentence (pop_back (remove old (recentPool_ d))))
              (unknown_ d).
Proof.
  intros Hne Hrecent Hmax. unfold HistoryBigram_add, add.
  destruct sentence as [|w ws]; [done|].
  destruct (Z.eqb_spec (maxSize_ (recentPool_ d)) 0) as [H0|_].
  { rewrite Hmax, Hrecent, length_app in H0. simpl in H0. lia. }
  by rewrite (evict_full _ _ _ rest old).
Qed.

(** ** The states reached by [add] *)

Lemma capacity_Z : Z.of_nat capacity = 8192.
Proof. reflexivity. Qed.

Lemma well_formed_new : well_formed newHistoryBigram.
Proof.
  split; try apply counted_newPool; try reflexivity. simpl. lia.
Qed.

Lemma well_formed_add (sentence : list string) (d : HistoryBigramPrivate) :
  well_formed d → well_formed (HistoryBigram_add sentence d).
Proof.
  intros [Hr Hf Hrm Hfm Hbound].
  destruct sentence as [|w ws]; [by rewrite HistoryBigram_add_nil|].
  destruct (Z.eq_dec (Z.of_nat (length (recent_ (recentPool_ d)))) 8192) as [Hfull|Hnot].
  - assert (Hne : recent_ (recentPool_ d) ≠ []).
    { intros Hnil. rewrite Hnil in Hfull. simpl in Hfull. lia. }
    destruct (exists_last Hne) as (rest & old & Hrecent).
    rewrite (HistoryBigram_add_full _ _ rest old) by (done || lia).
    destruct (counted_evicted _ rest old Hr Hrecent) as [Hr' Hrest].
    destruct (evicted_frame old (recentPool_ d)) as (Hm' & _).
    assert (Hold : old ≠ []).
    { destruct Hr as [_ Hall _ _ _ _]. rewrite Hrecent in Hall.
      apply Forall_app in Hall as [_ Hall]. by inversion Hall. }
    rewrite final_add_insert by done.
    destruct (insert_frame (w :: ws) (pop_back (remove old (recentPool_ d))))
      as (Hm2 & _ & Hr2).
    destruct (insert_frame old (finalPool_ d)) as (Hm3 & _).
    split; cbn [recentPool_ finalPool_].
    + by apply counted_insert.
    + by apply counted_insert.
    + by rewrite Hm2, Hm'.
    + by rewrite Hm3.
    + rewrite Hr2, Hrest. rewrite Hrecent, length_app in Hfull.
      cbn [length] in *. lia.
  - rewrite HistoryBigram_add_below by (done || lia).
    destruct (insert_frame (w :: ws) (recentPool_ d)) as (Hm2 & _ & Hr2).
    split; cbn [recentPool_ finalPool_]; try done.
    + by apply counted_insert.
    + by rewrite Hm2.
    + rewrite Hr2. cbn [length]. lia.
Qed.

Lemma adds_snoc (ss : list (list string)) (s : list string) (d : HistoryBigramPrivate) :
  adds (ss ++ [s]) d = HistoryBigram_add s (adds ss d).
Proof. unfold adds. by rewrite fold_left_app. Qed.

Lemma well_formed_adds (ss : list (list string)) (d : HistoryBigramPrivate) :
  well_formed d → well_formed (adds ss d).
Proof.
  induction ss as [|s ss IH] using rev_ind; [done|].
  intros Hd. rewrite adds_snoc. by apply well_formed_add, IH.
Qed.

(** After the sentences [ss] are added to a new [HistoryBigram], the recent
    pool lists the last 8192 of them and the final pool the ones before,
    each list with the newest sentence first. *)
Lemma adds_history (ss : list (list string)) :
  Forall (λ s, s ≠ []) ss →
  let d := adds ss newHistoryBigram in
  recent_ (recentPool_ d) = rev (drop (length ss - capacity) ss)
  ∧ recent_ (finalPool_ d) = rev (take (length ss - capacity) ss)
  ∧ unknown_ d = Float32.minus_five.
Proof.
  induction ss as [|s ss IH] using rev_ind; intros Hall; [done|].
  apply Forall_app in Hall as [Hss Hs]. inversion_clear Hs as [|? ? Hs' _].
  destruct (IH Hss) as (Hrec & Hfin & Hunk). clear IH.
  pose proof (well_formed_adds ss _ well_formed_new) as [Hr Hf Hrm Hfm Hbound].
  pose proof capacity_Z as Hcap.
  cbv zeta. rewrite adds_snoc, length_app. simpl length.
  set (d := adds ss newHistoryBigram) in *.
  destruct (decide (length ss < capacity)%nat) as [Hlt|Hge].
  - rewrite HistoryBigram_add_below; [|done|].
    2: { rewrite Hrm, Hrec, length_rev, length_drop. lia. }
    cbn [recentPool_ finalPool_ unknown_].
    destruct (insert_frame s (recentPool_ d)) as (_ & _ & ->).
    rewrite Hrec, Hfin.
    replace (length ss + 1 - capacity)%nat with 0%nat by lia.
    replace (length ss - capacity)%nat with 0%nat by lia.
    rewrite !drop_0, !take_0, rev_app_distr. done.
  - set (k := (length ss - capacity)%nat) in *.
    assert (Hk : (k < length ss)%nat) by lia.
    destruct (lookup_lt_is_Some_2 ss k Hk) as [old Hold].
    assert (Hrest : recent_ (recentPool_ d) = rev (drop (S k) ss) ++ [old]).
    { rewrite Hrec, (drop_S _ _ _ Hold). reflexivity. }
    assert (Holdne : old ≠ []).
    { rewrite Forall_forall in Hss. apply Hss. by eapply list_elem_of_lookup_2. }
    rewrite (HistoryBigram_add_full _ _ _ old Hs' Hrest).
    2: { rewrite Hrm, Hrec, length_rev, length_drop. lia. }
    rewrite final_add_insert by done. cbn [recentPool_ finalPool_ unknown_].
    destruct (insert_frame s (pop_back (remove old (recentPool_ d)))) as (_ & _ & ->).
    destruct (insert_frame old (finalPool_ d)) as (_ & _ & ->).
    destruct (evicted_frame old (recentPool_ d)) as (_ & _ & -> & _).
    rewrite Hrest, removelast_last, Hfin.
    replace (length ss + 1 - capacity)%nat with (S k) by lia.
    rewrite drop_app_le, take_app_le by lia.
    rewrite rev_app_distr, (take_S_r _ _ _ Hold), rev_app_distr. done.
Qed.

(** C6.  After more than 8192 non-empty sentences are added to a new
    [HistoryBigram], the recent pool has size 8192 and the final pool has the
    size [total - 8192].  On every add that overflows (the recent pool holds
    8192 sentences), the oldest sentence of the recent pool leaves its list
    and enters the list of the final pool, and its words and pairs are
    subtracted from the counts of the recent pool and added to the counts of
    the final pool. *)
Theorem eviction_moves_oldest :
  (∀ ss : list (list string),
      Forall (λ s, s ≠ []) ss →
      8192 < Z.of_nat (length ss) →
      let d := adds ss newHistoryBigram in
      size (recentPool_ d) = 8192
      ∧ size (finalPool_ d) = Z.of_nat (length ss) - 8192)
  ∧ (∀ (ss : list (list string)) (W : list string),
        Forall (λ s, s ≠ []) ss →
        8192 ≤ Z.of_nat (length ss) →
        W ≠ [] →
        let d := adds ss newHistoryBigram in
        let d' := HistoryBigram_add W d in
        ∃ (old : list string) (rest : list (list string)),
          ss !! (length ss - capacity)%nat = Some old
          ∧ recent_ (recentPool_ d) = rest ++ [old]
          ∧ recent_ (recentPool_ d') = W :: rest
          ∧ recent_ (finalPool_ d') = old :: recent_ (finalPool_ d)
          ∧ (∀ w, unigramFreq (recentPool_ d') w
                  = unigramFreq (recentPool_ d) w - occurrences w old + occurrences w W)
          ∧ (∀ w1 w2, bigramFreq (recentPool_ d') w1 w2
                      = bigramFreq (recentPool_ d) w1 w2
                        - key_occurrences (bigramKey w1 w2) old
                        + key_occurrences (bigramKey w1 w2) W)
          ∧ (∀ w, unigramFreq (finalPool_ d') w
                  = unigramFreq (finalPool_ d) w + occurrences w old)
          ∧ (∀ w1 w2, bigramFreq (finalPool_ d') w1 w2
                      = bigramFreq (finalPool_ d) w1 w2
                        + key_occurrences (bigramKey w1 w2) old)).
Proof.
  pose proof capacity_Z as Hcap. split.
  - intros ss Hall Hlen d.
    destruct (adds_history ss Hall) as (Hrec & Hfin & _).
    pose proof (well_formed_adds ss _ well_formed_new) as [Hr Hf _ _ _].
    fold d in Hrec, Hfin, Hr, Hf. unfold size.
    rewrite (counted_size _ Hr), (counted_size _ Hf), Hrec, Hfin.
    rewrite !length_rev, length_drop, length_take. lia.
  - intros ss W Hall Hlen HW d d'.
    destruct (adds_history ss Hall) as (Hrec & Hfin & _).
    pose proof (well_formed_adds ss _ well_formed_new) as [Hr Hf Hrm Hfm _].
    fold d in Hrec, Hfin, Hr, Hf, Hrm, Hfm.
    set (k := (length ss - capacity)%nat) in *.
    assert (Hk : (k < length ss)%nat) by lia.
    destruct (lookup_lt_is_Some_2 ss k Hk) as [old Hold].
    assert (Hrest : recent_ (recentPool_ d) = rev (drop (S k) ss) ++ [old]).
    { rewrite Hrec, (drop_S _ _ _ Hold). reflexivity. }
    assert (Holdne : old ≠ []).
    { rewrite Forall_forall in Hall. apply Hall. by eapply list_elem_of_lookup_2. }
    exists old, (rev (drop (S k) ss)).
    subst d'. rewrite (HistoryBigram_add_full _ _ _ old HW Hrest).
    2: { rewrite Hrm, Hrec, length_rev, length_drop. lia. }
    rewrite final_add_insert by done. cbn [recentPool_ finalPool_ unknown_].
    destruct (insert_frame W (pop_back (remove old (recentPool_ d)))) as (_ & _ & ->).
    destruct (insert_frame old (finalPool_ d)) as (_ & _ & ->).
    destruct (counted_evicted _ _ old Hr Hrest) as [Hev ->].
    destruct (evicted_frame old (recentPool_ d)) as (_ & _ & _ & Hu' & Hb').
    destruct Hr as [_ _ Hup Hbp Hcu Hcb].
    split_and!; try done.
    + intros w. rewrite insert_unigramFreq, !unigramFreq_freq, Hu'.
      rewrite remove_words_unigram, Hcu, Hrest, total_app by done. simpl.
      pose proof (total_nonneg (occurrences w) (rev (drop (S k) ss))
                    (occurrences_nonneg w)). lia.
    + intros w1 w2. rewrite insert_bigramFreq, !bigramFreq_freq, Hb'.
      rewrite remove_words_bigram, Hcb, Hrest, total_app by done. simpl.
      pose proof (total_nonneg (key_occurrences (bigramKey w1 w2))
                    (rev (drop (S k) ss))
                    (key_occurrences_nonneg (bigramKey w1 w2))). lia.
    + intros w. apply insert_unigramFreq.
    + intros w1 w2. apply insert_bigramFreq.
Qed.

Lemma eviction_moves_oldest_witness :
  (let d := adds (replicate (S capacity) ["x"%string]) newHistoryBigram in
   size (recentPool_ d) = 8192 ∧ size (finalPool_ d) = 1)
  ∧ ∃ old, replicate capacity ["x"%string] !! (capacity - capacity)%nat = Some old
           ∧ ∀ w,
               unigramFreq
                 (finalPool_ (HistoryBigram_add ["y"%string]
                                (adds (replicate capacity ["x"%string]) newHistoryBigram))) w
               = unigramFreq
                   (finalPool_ (adds (replicate capacity ["x"%string]) newHistoryBigram)) w
                 + occurrences w old.
Proof.
  pose proof capacity_Z as Hcap.
  assert (Hall : ∀ n, Forall (λ s : list string, s ≠ []) (replicate n ["x"%string])).
  { intros n. apply Forall_replicate. discriminate. }
  split.
  - assert (Hlen : 8192 < Z.of_nat (length (replicate (S capacity) ["x"%string]))).
    { rewrite length_replicate. lia. }
    destruct (proj1 eviction_moves_oldest _ (Hall (S capacity)) Hlen) as [H1 H2].
    split; [exact H1|]. rewrite H2, length_replicate. lia.
  - assert (Hlen : 8192 ≤ Z.of_nat (length (replicate capacity ["x"%string]))).
    { rewrite length_replicate. lia. }
    assert (HW : ["y"%string] ≠ []) by discriminate.
    destruct (proj2 eviction_moves_oldest _ ["y"%string] (Hall capacity) Hlen HW)
      as (old & rest & Hold & _ & _ & _ & _ & _ & Hfinal & _).
    exists old. split; [|exact Hfinal].
    rewrite length_replicate in Hold. exact Hold.
Defined.

(** ** The order of the saved sentences *)

Lemma final_save_tries (f : HistoryBigramPool) :
  maxSize_ f = 0 →
  final_save f = Stream.trie_save (unigram_ f) ++ Stream.trie_save (bigram_ f).
Proof. intros Hmax. unfold final_save, save. by rewrite Hmax. Qed.

(** C4, amended.  [save] writes the sentences of the recent pool oldest
    first: after the non-empty sentences [ss] are added to a new
    [HistoryBigram], the stream holds the number of sentences of the recent
    pool, then the records of the last 8192 sentences of [ss] in the order in
    which they were added (the most recently added one last), then the two
    tries of the final pool. *)
Theorem save_writes_oldest_first (ss : list (list string)) :
  Forall (λ s, s ≠ []) ss →
  let d := adds ss newHistoryBigram in
  HistoryBigram_save d
  = Stream.marshall (Z.min (Z.of_nat (length ss)) 8192)
      ++ flat_map save_sentence (drop (length ss - capacity) ss)
      ++ Stream.trie_save (unigram_ (finalPool_ d))
      ++ Stream.trie_save (bigram_ (finalPool_ d)).
Proof.
  intros Hall d. pose proof capacity_Z as Hcap.
  destruct (adds_history ss Hall) as (Hrec & _).
  pose proof (well_formed_adds ss _ well_formed_new) as [_ _ Hrm Hfm _].
  fold d in Hrec, Hrm, Hfm.
  unfold HistoryBigram_save, save. rewrite Hrm. cbn [Z.eqb].
  rewrite (final_save_tries _ Hfm), Hrec, rev_involutive, length_rev, length_drop.
  f_equal. f_equal. rewrite Z.mod_small by lia. lia.
Qed.

Lemma save_writes_oldest_first_witness :
  HistoryBigram_save (adds [["old"]; ["new"]]%string newHistoryBigram)
  = Stream.marshall 2
      ++ save_sentence ["old"%string] ++ save_sentence ["new"%string]
      ++ Stream.trie_save ∅ ++ Stream.trie_save ∅.
Proof.
  assert (Hall : Forall (λ s : list string, s ≠ []) [["old"]; ["new"]]%string)
    by (repeat constructor; discriminate).
  rewrite (save_writes_oldest_first _ Hall). reflexivity.
Defined.

(** C4 as it is stated fails: after [add(["old"])] and [add(["new"])] the
    first record of the stream is the one of [["old"]], not the one of the
    most recently added sentence. *)
Lemma save_newest_first_counterexample :
  let d := adds [["old"]; ["new"]]%string newHistoryBigram in
  recent_ (recentPool_ d) = [["new"]; ["old"]]%string
  ∧ (∃ rest, HistoryBigram_save d
             = Stream.marshall 2 ++ save_sentence ["old"%string] ++ rest)
  ∧ ¬ (∃ rest, HistoryBigram_save d
               = Stream.marshall 2 ++ save_sentence ["new"%string] ++ rest).
Proof.
  split_and!.
  - reflexivity.
  - eexists. vm_compute. reflexivity.
  - intros [rest Hsave]. vm_compute in Hsave. discriminate Hsave.
Qed.

(** ** Reading back what [save] writes *)

Lemma Z_of_char_of_Z (z : Z) : Stream.Z_of_char (Stream.char_of_Z z) = z mod 256.
Proof.
  unfold Stream.Z_of_char, Stream.char_of_Z.
  pose proof (Z.mod_pos_bound z 256 ltac:(lia)) as Hb.
  rewrite N_ascii_embedding by lia. lia.
Qed.

Lemma unmarshall_marshall (n : Z) (rest : Stream.t) :
  0 ≤ n < 2 ^ 32 →
  Stream.unmarshall (Stream.marshall n ++ rest) = Some (n, rest).
Proof.
  intros Hn. unfold Stream.unmarshall, Stream.marshall. cbn [app Stream.read].
  rewrite !Z_of_char_of_Z. do 2 f_equal.
  change (2 ^ 32) with 4294967296 in Hn.
  Z.div_mod_to_equations. lia.
Qed.

Lemma read_write (s : string) (rest : Stream.t) :
  Stream.read (String.length s) (Stream.write s ++ rest)
  = Some (list_ascii_of_string s, rest).
Proof.
  unfold Stream.write. induction s as [|c s IH]; [done|].
  cbn [String.length list_ascii_of_string map app Stream.read]. by rewrite IH.
Qed.

Lemma load_words_saved (ws : list string) (rest : Stream.t) (acc : list string) :
  Forall (λ w, Z.of_nat (String.length w) < 2 ^ 32) ws →
  load_words (length ws) (flat_map save_word ws ++ rest) acc = Some (acc ++ ws, rest).
Proof.
  intros Hws. revert acc. induction Hws as [|w ws Hw _ IH]; intros acc.
  - by rewrite app_nil_r.
  - cbn [length flat_map load_words]. unfold save_word at 1.
    rewrite <- !app_assoc, Z.mod_small by lia.
    rewrite unmarshall_marshall by lia.
    rewrite Nat2Z.id, read_write, string_of_list_ascii_of_string, IH.
    by rewrite <- app_assoc.
Qed.

Lemma load_sentence_saved (sentence : list string) (rest : Stream.t) :
  fits sentence →
  load_sentence (save_sentence sentence ++ rest) = Some (sentence, rest).
Proof.
  intros [Hlen Hws]. unfold load_sentence, save_sentence.
  rewrite <- app_assoc, Z.mod_small by lia.
  rewrite unmarshall_marshall by lia.
  by rewrite Nat2Z.id, load_words_saved.
Qed.

Lemma add_pools (sentence : list string) (d : HistoryBigramPrivate) :
  add final_add sentence (recentPool_ d) (finalPool_ d)
  = (recentPool_ (HistoryBigram_add sentence d),
     finalPool_ (HistoryBigram_add sentence d)).
Proof.
  unfold HistoryBigram_add.
  by destruct (add final_add sentence (recentPool_ d) (finalPool_ d)).
Qed.

Lemma HistoryBigram_add_unknown (sentence : list string) (d : HistoryBigramPrivate) :
  unknown_ (HistoryBigram_add sentence d) = unknown_ d.
Proof.
  unfold HistoryBigram_add.
  by destruct (add final_add sentence (recentPool_ d) (finalPool_ d)).
Qed.

Lemma load_sentences_saved (ss : list (list string)) (extra : nat)
    (tail : Stream.t) (d : HistoryBigramPrivate) :
  Forall fits ss →
  load_sentences final_add (length ss + extra) (flat_map save_sentence ss ++ tail)
    (recentPool_ d) (finalPool_ d)
  = load_sentences final_add extra tail
      (recentPool_ (adds ss d)) (finalPool_ (adds ss d)).
Proof.
  intros Hss. revert d. induction Hss as [|s ss Hs _ IH]; intros d; [done|].
  cbn [length flat_map Nat.add load_sentences].
  rewrite <- app_assoc, load_sentence_saved, add_pools by done.
  apply IH.
Qed.

Lemma adds_unknown (ss : list (list string)) (d : HistoryBigramPrivate) :
  unknown_ (adds ss d) = unknown_ d.
Proof.
  revert d. induction ss as [|s ss IH]; intros d; [done|].
  cbn [adds fold_left]. fold (adds ss (HistoryBigram_add s d)).
  by rewrite IH, HistoryBigram_add_unknown.
Qed.

(** ** What [save] and [load] keep *)

Lemma positive_ext (t1 t2 : gmap string Z) :
  positive t1 → positive t2 → (∀ k, freq t1 k = freq t2 k) → t1 = t2.
Proof.
  intros H1 H2 Hfreq. apply map_eq. intros k.
  specialize (Hfreq k). unfold freq in Hfreq.
  destruct (t1 !! k) as [v1|] eqn:E1, (t2 !! k) as [v2|] eqn:E2;
    simpl in Hfreq; subst; try done.
  - specialize (H1 k 0 E1). lia.
  - specialize (H2 k 0 E2). lia.
Qed.

Lemma counted_ext (p q : HistoryBigramPool) :
  counted p → counted q →
  maxSize_ p = maxSize_ q → recent_ p = recent_ q → p = q.
Proof.
  intros [Hps _ Hpu Hpb Hpcu Hpcb] [Hqs _ Hqu Hqb Hqcu Hqcb] Hmax Hrecent.
  destruct p as [pm psz pr pu pb], q as [qm qsz qr qu qb]. simpl in *. subst.
  f_equal.
  - apply positive_ext; try done. intros k. by rewrite Hpcu, Hqcu.
  - apply positive_ext; try done. intros k. by rewrite Hpcb, Hqcb.
Qed.

(** The recent pool is the one that the sentences still in it build in a new
    [HistoryBigram]. *)
Lemma recent_pool_of_last (ss : list (list string)) :
  Forall (λ s, s ≠ []) ss →
  recentPool_ (adds (drop (length ss - capacity) ss) newHistoryBigram)
  = recentPool_ (adds ss newHistoryBigram).
Proof.
  intros Hall.
  assert (Hlast : Forall (λ s : list string, s ≠ []) (drop (length ss - capacity) ss))
    by by apply Forall_drop.
  destruct (adds_history _ Hall) as (Hrec & _).
  destruct (adds_history _ Hlast) as (Hrec' & _).
  pose proof (well_formed_adds ss _ well_formed_new) as [Hr _ Hrm _ _].
  pose proof (well_formed_adds (drop (length ss - capacity) ss) _ well_formed_new)
    as [Hr' _ Hrm' _ _].
  apply counted_ext; try done; [congruence|].
  rewrite Hrec, Hrec', length_drop.
  replace (length ss - (length ss - capacity) - capacity)%nat with 0%nat by lia.
  by rewrite drop_0.
Qed.

Lemma final_load_tries (u b : gmap string Z) (f : HistoryBigramPool) :
  maxSize_ f = 0 →
  final_load (Stream.trie_save u ++ Stream.trie_save b) f
  = (Some [], mkPool 0 0 [] u b).
Proof.
  intros Hmax. unfold final_load, load. cbn [clear maxSize_].
  rewrite Hmax. simpl. unfold with_bigram, with_unigram, clear. simpl.
  by rewrite Hmax.
Qed.

(** After any sequence of [add] calls, [save] and then [load] into a new
    [HistoryBigram] give back the recent pool and the two tries of the final
    pool; the size of the final pool is 0 and its sentence list is empty. *)
Lemma load_save (ss : list (list string)) :
  Forall (λ s, s ≠ []) ss → Forall fits ss →
  let d := adds ss newHistoryBigram in
  HistoryBigram_load (HistoryBigram_save d) newHistoryBigram
  = (Some [],
     mkPrivate (mkPool 0 0 [] (unigram_ (finalPool_ d)) (bigram_ (finalPool_ d)))
               (recentPool_ d) (unknown_ d)).
Proof.
  intros Hall Hfits. cbv zeta. pose proof capacity_Z as Hcap.
  assert (Hlast : Forall fits (drop (length ss - capacity) ss)) by by apply Forall_drop.
  rewrite (save_writes_oldest_first ss Hall).
  set (d := adds ss newHistoryBigram).
  unfold HistoryBigram_load, load.
  change (maxSize_ (clear (recentPool_ newHistoryBigram)) =? 0) with false.
  cbv iota.
  rewrite unmarshall_marshall by lia.
  replace (Z.to_nat (Z.min (Z.of_nat (length ss)) 8192))
    with (length (drop (length ss - capacity) ss) + 0)%nat
    by (rewrite length_drop; lia).
  change (clear (recentPool_ newHistoryBigram)) with (recentPool_ newHistoryBigram).
  rewrite load_sentences_saved by done.
  cbn [load_sentences].
  rewrite final_load_tries
    by apply (wf_final_max _ (well_formed_adds _ _ well_formed_new)).
  rewrite (recent_pool_of_last ss Hall). fold d.
  unfold d. rewrite adds_unknown. reflexivity.
Qed.

(** ** An aged history *)

Lemma total_rev (f : list string → Z) (l : list (list string)) :
  total f (rev l) = total f l.
Proof.
  induction l as [|s l IH]; [done|].
  cbn [rev]. rewrite total_app, IH. simpl. lia.
Qed.

Lemma total_replicate (f : list string → Z) (n : nat) (s : list string) :
  total f (replicate n s) = Z.of_nat n * f s.
Proof.
  induction n as [|n IH]; [done|].
  cbn [replicate total fold_right]. fold (total f (replicate n s)). lia.
Qed.

Lemma aged_sentences_nonempty : Forall (λ s : list string, s ≠ []) aged_sentences.
Proof.
  constructor; [discriminate|]. apply Forall_replicate. discriminate.
Qed.

Lemma aged_sentences_fit : Forall fits aged_sentences.
Proof.
  assert (Hfit : ∀ w : string, String.length w = 1%nat → fits [w]).
  { intros w Hw. split; [simpl; lia|]. repeat constructor. rewrite Hw. lia. }
  constructor; [by apply Hfit|]. apply Forall_replicate. by apply Hfit.
Qed.

(** The sizes and the counts of [aged_history]. *)
Lemma aged_history_counts :
  size (recentPool_ aged_history) = 8192
  ∧ size (finalPool_ aged_history) = 1
  ∧ unknown_ aged_history = Float32.minus_five
  ∧ (∀ w, unigramFreq (recentPool_ aged_history) w = 8192 * occurrences w ["x"%string])
  ∧ (∀ w, unigramFreq (finalPool_ aged_history) w = occurrences w ["b"%string])
  ∧ (∀ w1 w2, bigramFreq (recentPool_ aged_history) w1 w2 = 0)
  ∧ (∀ w1 w2, bigramFreq (finalPool_ aged_history) w1 w2 = 0).
Proof.
  pose proof capacity_Z as Hcap.
  assert (Hlen : length aged_sentences = S capacity).
  { unfold aged_sentences. cbn [length]. by rewrite length_replicate. }
  assert (Hone : (S capacity - capacity)%nat = 1%nat) by lia.
  unfold aged_history.
  destruct (adds_history _ aged_sentences_nonempty) as (Hrec & Hfin & Hunk).
  pose proof (well_formed_adds aged_sentences _ well_formed_new) as [Hr Hf _ _ _].
  set (d := adds aged_sentences newHistoryBigram) in *. clearbody d.
  rewrite Hlen, Hone in Hrec, Hfin.
  unfold aged_sentences in Hrec, Hfin. cbn [drop take skipn firstn] in Hrec, Hfin.
  rewrite drop_0 in Hrec. rewrite take_0 in Hfin.
  destruct Hr as [Hrs _ _ _ Hru Hrb], Hf as [Hfs _ _ _ Hfu Hfb].
  split_and!.
  - unfold size. rewrite Hrs, Hrec, length_rev, length_replicate. lia.
  - unfold size. by rewrite Hfs, Hfin.
  - exact Hunk.
  - intros w. by rewrite unigramFreq_freq, Hru, Hrec, total_rev, total_replicate, Hcap.
  - intros w. rewrite unigramFreq_freq, Hfu, Hfin. cbn [rev app total fold_right]. lia.
  - intros w1 w2. rewrite bigramFreq_freq, Hrb, Hrec, total_rev, total_replicate.
    cbn [key_occurrences]. lia.
  - intros w1 w2. rewrite bigramFreq_freq, Hfb, Hfin. reflexivity.
Qed.

(** [reloaded_history] has the recent pool and the tries of [aged_history],
    and a final pool of size 0. *)
Lemma reloaded_history_state :
  reloaded_history
  = (Some [],
     mkPrivate (mkPool 0 0 [] (unigram_ (finalPool_ aged_history))
                              (bigram_ (finalPool_ aged_history)))
               (recentPool_ aged_history) (unknown_ aged_history)).
Proof. exact (load_save _ aged_sentences_nonempty aged_sentences_fit). Qed.

Lemma aged_history_blend_b : Private_unigramFreq aged_history "b" = Float32.c0_05.
Proof.
  pose proof aged_history_counts as Hcounts. revert Hcounts.
  generalize aged_history. intros d (_ & _ & _ & Hru & Hfu & _).
  unfold Private_unigramFreq. rewrite Hru, Hfu. vm_compute. reflexivity.
Qed.

Lemma aged_history_pr_b : score_pr aged_history "a" "b" = Float32.zero.
Proof.
  pose proof aged_history_counts as Hcounts. revert Hcounts.
  generalize aged_history. intros d (Hrs & Hfs & _ & Hru & Hfu & Hrb & Hfb).
  unfold score_pr, Private_unigramFreq, Private_bigramFreq, Private_size.
  rewrite !Hru, !Hfu, Hrb, Hfb, Hrs, Hfs. vm_compute. reflexivity.
Qed.

Lemma aged_history_blended_pr_b :
  blended_pr aged_history "a" "b" = S754_finite false 8589359 (-42).
Proof.
  pose proof aged_history_counts as Hcounts. revert Hcounts.
  generalize aged_history. intros d (Hrs & Hfs & _ & Hru & Hfu & Hrb & Hfb).
  unfold blended_pr, Private_unigramFreq, Private_bigramFreq, Private_size.
  rewrite !Hru, !Hfu, Hrb, Hfb, Hrs, Hfs. vm_compute. reflexivity.
Qed.

Lemma aged_history_pr_x :
  score_pr aged_history "a" "x" = S754_finite false 10736697 (-25).
Proof.
  pose proof aged_history_counts as Hcounts. revert Hcounts.
  generalize aged_history. intros d (Hrs & Hfs & _ & Hru & Hfu & Hrb & Hfb).
  unfold score_pr, Private_unigramFreq, Private_bigramFreq, Private_size.
  rewrite !Hru, !Hfu, Hrb, Hfb, Hrs, Hfs. vm_compute. reflexivity.
Qed.

(** What is observed on [reloaded_history]. *)
Lemma reloaded_history_run :
  fst reloaded_history = Some []
  ∧ size (finalPool_ (snd reloaded_history)) = 0
  ∧ recentPool_ (snd reloaded_history) = recentPool_ aged_history
  ∧ score_pr (snd reloaded_history) "a" "x" = S754_finite false 10736763 (-25).
Proof.
  pose proof aged_history_counts as Hcounts.
  pose proof reloaded_history_state as Hstate. revert Hcounts Hstate.
  generalize reloaded_history. generalize aged_history.
  intros d r (Hrs & _ & _ & Hru & Hfu & Hrb & Hfb) ->.
  cbn [fst snd recentPool_ finalPool_ size size_].
  split_and!; try reflexivity.
  unfold score_pr, Private_unigramFreq, Private_bigramFreq, Private_size.
  cbn [recentPool_ finalPool_ size size_].
  change (unigramFreq (mkPool 0 0 [] (unigram_ (finalPool_ d)) (bigram_ (finalPool_ d))))
    with (unigramFreq (finalPool_ d)).
  change (bigramFreq (mkPool 0 0 [] (unigram_ (finalPool_ d)) (bigram_ (finalPool_ d))))
    with (bigramFreq (finalPool_ d)).
  fold (size (recentPool_ d)).
  rewrite !Hru, !Hfu, Hrb, Hfb, Hrs. vm_compute. reflexivity.
Qed.

(** C1.  In [aged_history] the word ["b"] has the blended count
    [0 + 0.05 * 1], which the source converts to the [int] 0 before it
    computes the probability: the probability is 0 and [score("a", "b")] is
    the unknown floor, while the formula on the blended counts gives a
    probability that is neither 0 nor at least 1, and so the [log10] of it. *)
Theorem score_truncates_blended_counts :
  Private_unigramFreq aged_history "b" = Float32.c0_05
  ∧ score_pr aged_history "a" "b" = Float32.zero
  ∧ blended_pr aged_history "a" "b" = S754_finite false 8589359 (-42)
  ∧ ∀ log10,
      HistoryBigram_score log10 aged_history "a" "b" = Float32.minus_five
      ∧ blended_score log10 aged_history "a" "b"
        = log10 (S754_finite false 8589359 (-42)).
Proof.
  pose proof aged_history_blend_b as Hblend.
  pose proof aged_history_pr_b as Hpr.
  pose proof aged_history_blended_pr_b as Hblended.
  pose proof (proj1 (proj2 (proj2 aged_history_counts))) as Hunk.
  revert Hblend Hpr Hblended Hunk. generalize aged_history.
  intros d Hblend Hpr Hblended Hunk.
  split_and!; try assumption.
  intros log10. unfold HistoryBigram_score, blended_score.
  rewrite Hpr, Hblended, Hunk. split; reflexivity.
Qed.

(** C3.  In [aged_history] the blended unigram count of ["b"] is not zero
    (and ["b"] is not unknown), and yet [score("a", "b")] is the unknown
    floor: the conversion of the blended counts to [int] makes the
    probability 0. *)
Theorem score_floor_with_evidence :
  Private_unigramFreq aged_history "b" = Float32.c0_05
  ∧ Float32.eqb (Private_unigramFreq aged_history "b") (Float32.of_Z 0) = false
  ∧ HistoryBigram_isUnknown aged_history "b" = false
  ∧ ∀ log10, HistoryBigram_score log10 aged_history "a" "b" = unknown_ aged_history.
Proof.
  pose proof aged_history_blend_b as Hblend.
  pose proof aged_history_pr_b as Hpr.
  revert Hblend Hpr. generalize aged_history. intros d Hblend Hpr.
  split_and!.
  - exact Hblend.
  - rewrite Hblend. reflexivity.
  - unfold HistoryBigram_isUnknown. rewrite Hblend. reflexivity.
  - intros log10. unfold HistoryBigram_score. rewrite Hpr. reflexivity.
Qed.

(** C2.  [save] does not write the size of the final pool and [load] leaves
    it at 0: after [aged_history] is saved and loaded into a fresh
    [HistoryBigram], the load succeeds and gives back the recent pool, but
    the final pool has size 0 instead of 1, and [score("a", "x")] is the
    [log10] of another probability. *)
Theorem save_load_loses_final_size :
  fst reloaded_history = Some []
  ∧ size (finalPool_ aged_history) = 1
  ∧ size (finalPool_ (snd reloaded_history)) = 0
  ∧ recentPool_ (snd reloaded_history) = recentPool_ aged_history
  ∧ score_pr aged_history "a" "x" = S754_finite false 10736697 (-25)
  ∧ score_pr (snd reloaded_history) "a" "x" = S754_finite false 10736763 (-25)
  ∧ ∀ log10,
      HistoryBigram_score log10 aged_history "a" "x"
      = log10 (S754_finite false 10736697 (-25))
      ∧ HistoryBigram_score log10 (snd reloaded_history) "a" "x"
        = log10 (S754_finite false 10736763 (-25)).
Proof.
  pose proof (proj1 (proj2 aged_history_counts)) as Hfs.
  pose proof aged_history_pr_x as Hpr.
  pose proof reloaded_history_run as Hrun.
  revert Hfs Hpr Hrun. generalize reloaded_history. generalize aged_history.
  intros d r Hfs Hpr (Hok & Hfs' & Hrec & Hpr').
  split_and!; try assumption.
  intros log10. unfold HistoryBigram_score.
  rewrite Hpr, Hpr'. split; reflexivity.
Qed.

(** * Further properties of the history pools *)

(** ** The recent pool does not depend on the pool behind it *)

Lemma evict_fst_indep {N1 N2 : Type}
    (add1 : list string → N1 → N1) (add2 : list string → N2 → N2)
    (fuel : nat) (p : HistoryBigramPool) (n1 : N1) (n2 : N2) :
  fst (evict add1 fuel p n1) = fst (evict add2 fuel p n2).
Proof.
  revert p n1 n2. induction fuel as [|fuel IH]; intros p n1 n2; simpl; [done|].
  destruct (maxSize_ p <=? Z.of_nat (length (recent_ p))); [|done].
  destruct (back (recent_ p)) as [old|]; [|done]. apply IH.
Qed.

Lemma add_fst_indep {N1 N2 : Type}
    (add1 : list string → N1 → N1) (add2 : list string → N2 → N2)
    (sentence : list string) (p : HistoryBigramPool) (n1 : N1) (n2 : N2) :
  fst (add add1 sentence p n1) = fst (add add2 sentence p n2).
Proof.
  unfold add. destruct sentence as [|w ws]; [done|].
  destruct (maxSize_ p =? 0); [done|].
  pose proof (evict_fst_indep add1 add2 (length (recent_ p)) p n1 n2) as Hfst.
  destruct (evict add1 (length (recent_ p)) p n1) as [p1 m1].
  destruct (evict add2 (length (recent_ p)) p n2) as [p2 m2].
  simpl in *. by subst.
Qed.

Lemma HistoryBigram_add_recent (sentence : list string) (d : HistoryBigramPrivate) :
  recentPool_ (HistoryBigram_add sentence d)
  = fst (add final_add sentence (recentPool_ d) (finalPool_ d)).
Proof. by rewrite add_pools. Qed.

Lemma adds_recent_indep (ss : list (list string)) (d d' : HistoryBigramPrivate) :
  recentPool_ d = recentPool_ d' →
  recentPool_ (adds ss d) = recentPool_ (adds ss d').
Proof.
  revert d d'. induction ss as [|s ss IH]; intros d d' Heq; [done|].
  cbn [adds fold_left]. apply IH.
  rewrite !HistoryBigram_add_recent, Heq. apply add_fst_indep.
Qed.

(** X1.  What the final pool holds never reaches the recent pool: after
    any sequence of [add] calls the recent pool is what it is with any other
    final pool (and any other unknown floor) at the start. *)
Theorem recent_pool_ignores_final (ss : list (list string))
    (r f f' : HistoryBigramPool) (u u' : Float32.float) :
  recentPool_ (adds ss (mkPrivate f r u)) = recentPool_ (adds ss (mkPrivate f' r u')).
Proof. by apply adds_recent_indep. Qed.

(** ** [maxSize_] is constant *)

Lemma evict_maxSize {Next : Type} (next_add : list string → Next → Next)
    (fuel : nat) (p : HistoryBigramPool) (next : Next) :
  maxSize_ (fst (evict next_add fuel p next)) = maxSize_ p.
Proof.
  revert p next. induction fuel as [|fuel IH]; intros p next; simpl; [done|].
  destruct (maxSize_ p <=? Z.of_nat (length (recent_ p))); [|done].
  destruct (back (recent_ p)) as [old|]; [|done].
  rewrite IH. by destruct (evicted_frame old p) as (-> & _).
Qed.

Lemma evict_snd_keeps {Next : Type} (next_add : list string → Next → Next)
    (P : Next → Prop) (fuel : nat) (p : HistoryBigramPool) (next : Next) :
  (∀ s n, P n → P (next_add s n)) → P next →
  P (snd (evict next_add fuel p next)).
Proof.
  intros Hadd. revert p next.
  induction fuel as [|fuel IH]; intros p next Hnext; simpl; [done|].
  destruct (maxSize_ p <=? Z.of_nat (length (recent_ p))); [|done].
  destruct (back (recent_ p)) as [old|]; [|done]. apply IH. by apply Hadd.
Qed.

Lemma add_maxSize {Next : Type} (next_add : list string → Next → Next)
    (sentence : list string) (p : HistoryBigramPool) (next : Next) :
  maxSize_ (fst (add next_add sentence p next)) = maxSize_ p.
Proof.
  unfold add. destruct sentence as [|w ws]; [done|].
  destruct (maxSize_ p =? 0).
  - cbn [fst]. by destruct (insert_frame (w :: ws) p) as (-> & _).
  - pose proof (evict_maxSize next_add (length (recent_ p)) p next) as Hmax.
    destruct (evict next_add (length (recent_ p)) p next) as [p1 m1].
    cbn [fst] in *. by destruct (insert_frame (w :: ws) p1) as (-> & _).
Qed.

Lemma add_snd_keeps {Next : Type} (next_add : list string → Next → Next)
    (P : Next → Prop) (sentence : list string) (p : HistoryBigramPool) (next : Next) :
  (∀ s n, P n → P (next_add s n)) → P next →
  P (snd (add next_add sentence p next)).
Proof.
  intros Hadd Hnext. unfold add. destruct sentence as [|w ws]; [done|].
  destruct (maxSize_ p =? 0); [done|].
  pose proof (evict_snd_keeps next_add P (length (recent_ p)) p next Hadd Hnext) as Hsnd.
  by destruct (evict next_add (length (recent_ p)) p next) as [p1 m1].
Qed.

Lemma final_add_maxSize (sentence : list string) (f : HistoryBigramPool) :
  maxSize_ (final_add sentence f) = maxSize_ f.
Proof. apply add_maxSize. Qed.

Lemma HistoryBigram_add_maxSize (sentence : list string) (d : HistoryBigramPrivate) :
  maxSize_ (recentPool_ (HistoryBigram_add sentence d)) = maxSize_ (recentPool_ d)
  ∧ maxSize_ (finalPool_ (HistoryBigram_add sentence d)) = maxSize_ (finalPool_ d).
Proof.
  pose proof (add_pools sentence d) as Hpools.
  split.
  - rewrite HistoryBigram_add_recent. apply add_maxSize.
  - replace (finalPool_ (HistoryBigram_add sentence d))
      with (snd (add final_add sentence (recentPool_ d) (finalPool_ d)))
      by (by rewrite Hpools).
    apply (add_snd_keeps final_add (λ f, maxSize_ f = maxSize_ (finalPool_ d)));
      [|done].
    intros s n Hn. by rewrite final_add_maxSize.
Qed.

Lemma adds_maxSize (ss : list (list string)) (d : HistoryBigramPrivate) :
  maxSize_ (recentPool_ (adds ss d)) = maxSize_ (recentPool_ d)
  ∧ maxSize_ (finalPool_ (adds ss d)) = maxSize_ (finalPool_ d).
Proof.
  revert d. induction ss as [|s ss IH]; intros d; [done|].
  cbn [adds fold_left]. fold (adds ss (HistoryBigram_add s d)).
  destruct (IH (HistoryBigram_add s d)) as [-> ->].
  apply HistoryBigram_add_maxSize.
Qed.

(** ** The bound of the recent pool *)

(** X2.  Whatever a bounded pool holds, even more sentences than its
    capacity, [add] of a non-empty sentence leaves it with at most
    [maxSize_] sentences: the loop evicts until there is room for the new
    one. *)
Theorem add_restores_bound (sentence : list string) (d : HistoryBigramPrivate) :
  sentence ≠ [] → 0 < maxSize_ (recentPool_ d) →
  let d' := HistoryBigram_add sentence d in
  Z.of_nat (length (recent_ (recentPool_ d'))) ≤ maxSize_ (recentPool_ d')
  ∧ maxSize_ (recentPool_ d') = maxSize_ (recentPool_ d)
  ∧ hd_error (recent_ (recentPool_ d')) = Some sentence.
Proof.
  intros Hne Hmax d'. subst d'.
  rewrite HistoryBigram_add_recent. unfold add.
  destruct sentence as [|w ws]; [done|].
  destruct (Z.eqb_spec (maxSize_ (recentPool_ d)) 0) as [|_]; [lia|].
  pose proof (evict_done final_add (length (recent_ (recentPool_ d)))
                (recentPool_ d) (finalPool_ d) Hmax (le_n _)) as [Hlt Hsame].
  destruct (evict final_add (length (recent_ (recentPool_ d)))
              (recentPool_ d) (finalPool_ d)) as [p1 f1].
  cbn [fst] in *.
  destruct (insert_frame (w :: ws) p1) as (-> & _ & ->).
  cbn [length hd_error]. split_and!; [lia|done|done].
Qed.

Lemma add_restores_bound_witness :
  let crowded := mkPool 2 3 [["c"]; ["b"]; ["a"]]%string ∅ ∅ in
  let d' := HistoryBigram_add ["d"%string]
              (mkPrivate (newPool 0) crowded Float32.minus_five) in
  Z.of_nat (length (recent_ (recentPool_ d'))) ≤ 2.
Proof.
  intros crowded d'.
  assert (Hne : ["d"%string] ≠ []) by discriminate.
  assert (Hmax : 0 < maxSize_ (recentPool_
                    (mkPrivate (newPool 0) crowded Float32.minus_five)))
    by (simpl; lia).
  destruct (add_restores_bound _ _ Hne Hmax) as (Hbound & Hsame & _).
  fold d' in Hbound, Hsame. rewrite Hsame in Hbound. exact Hbound.
Defined.

(** ** [remove] undoes the counting of [add] *)

(** X3.  On a pool whose stored counters are all positive, [remove] of a
    sentence right after the end of [add] (the loop over the words,
    [push_front] and [size_++]) gives back both tries and the size; only
    the sentence stays at the front of the list. *)
Theorem remove_undoes_insert (sentence : list string) (p : HistoryBigramPool) :
  positive (unigram_ p) → positive (bigram_ p) →
  remove sentence (insert sentence p) = with_recent p (sentence :: recent_ p).
Proof.
  intros Hu Hb.
  destruct (insert_frame sentence p) as (Hm & Hs & Hr).
  destruct (add_words_positive sentence p Hu Hb) as [Hu' Hb'].
  destruct (remove_words_frame sentence (insert sentence p)) as (Hm2 & Hs2 & Hr2).
  destruct (remove_words_positive sentence (insert sentence p) Hu' Hb') as [Hu2 Hb2].
  assert (Hun : unigram_ (remove_words sentence (insert sentence p)) = unigram_ p).
  { apply positive_ext; try done. intros k.
    rewrite remove_words_unigram by done.
    change (unigram_ (insert sentence p)) with (unigram_ (add_words sentence p)).
    rewrite add_words_unigram. pose proof (freq_nonneg _ k Hu). lia. }
  assert (Hbi : bigram_ (remove_words sentence (insert sentence p)) = bigram_ p).
  { apply positive_ext; try done. intros k.
    rewrite remove_words_bigram by done.
    change (bigram_ (insert sentence p)) with (bigram_ (add_words sentence p)).
    rewrite add_words_bigram. pose proof (freq_nonneg _ k Hb). lia. }
  unfold remove, with_size, with_recent. cbn [maxSize_ size_ recent_ unigram_ bigram_].
  rewrite Hm2, Hs2, Hr2, Hun, Hbi, Hm, Hs, Hr. f_equal. lia.
Qed.

Lemma remove_undoes_insert_witness :
  remove ["a"; "b"; "a"]%string (insert ["a"; "b"; "a"]%string (newPool 8192))
  = with_recent (newPool 8192) [["a"; "b"; "a"]%string].
Proof.
  apply (remove_undoes_insert ["a"; "b"; "a"]%string (newPool 8192));
    apply positive_empty.
Defined.

(** ** Every state that [add] reaches *)

Lemma adds_cons (s : list string) (ss : list (list string)) (d : HistoryBigramPrivate) :
  adds (s :: ss) d = adds ss (HistoryBigram_add s d).
Proof. reflexivity. Qed.

Lemma adds_filter (ss : list (list string)) (d : HistoryBigramPrivate) :
  adds ss d = adds (filter (λ s, s ≠ []) ss) d.
Proof.
  revert d. induction ss as [|s ss IH]; intros d; [done|].
  rewrite adds_cons. destruct s as [|w ws].
  - rewrite HistoryBigram_add_nil, filter_cons_False by (intros H; by apply H).
    apply IH.
  - rewrite filter_cons_True by done. rewrite adds_cons. apply IH.
Qed.

Lemma total_filter (f : list string → Z) (ss : list (list string)) :
  f [] = 0 → total f (filter (λ s, s ≠ []) ss) = total f ss.
Proof.
  intros Hnil. induction ss as [|s ss IH]; [done|]. destruct s as [|w ws].
  - rewrite filter_cons_False by (intros H; by apply H).
    cbn [total fold_right]. fold (total f ss). lia.
  - rewrite filter_cons_True by done.
    cbn [total fold_right]. fold (total f ss).
    fold (total f (filter (λ s, s ≠ []) ss)). lia.
Qed.

Lemma filter_nonempty (ss : list (list string)) :
  Forall (λ s : list string, s ≠ []) (filter (λ s, s ≠ []) ss).
Proof. apply Forall_forall. intros s Hs. by apply list_elem_of_filter in Hs as [? _]. Qed.

(** X4.  The invariants of a [HistoryBigram]: after any sequence of [add]
    calls on a new one, whatever the sentences, each pool's [size_] is the
    length of its sentence list, the recent pool holds at most 8192
    sentences, no stored sentence is empty, every counter stored in the four
    tries is positive (a count that falls to 0 is erased), and
    [unigramFreq] and [bigramFreq] are never negative. *)
Theorem adds_keep_invariants (ss : list (list string)) :
  let d := adds ss newHistoryBigram in
  size (recentPool_ d) = Z.of_nat (length (recent_ (recentPool_ d)))
  ∧ size (finalPool_ d) = Z.of_nat (length (recent_ (finalPool_ d)))
  ∧ size (recentPool_ d) ≤ 8192
  ∧ maxSize_ (recentPool_ d) = 8192 ∧ maxSize_ (finalPool_ d) = 0
  ∧ Forall (λ s, s ≠ []) (recent_ (recentPool_ d) ++ recent_ (finalPool_ d))
  ∧ positive (unigram_ (recentPool_ d)) ∧ positive (bigram_ (recentPool_ d))
  ∧ positive (unigram_ (finalPool_ d)) ∧ positive (bigram_ (finalPool_ d))
  ∧ (∀ w, 0 ≤ unigramFreq (recentPool_ d) w ∧ 0 ≤ unigramFreq (finalPool_ d) w)
  ∧ (∀ w1 w2, 0 ≤ bigramFreq (recentPool_ d) w1 w2
              ∧ 0 ≤ bigramFreq (finalPool_ d) w1 w2).
Proof.
  intros d.
  pose proof (well_formed_adds ss _ well_formed_new) as [Hr Hf Hrm Hfm Hbound].
  fold d in Hr, Hf, Hrm, Hfm, Hbound.
  destruct Hr as [Hrs Hrne Hru Hrb _ _], Hf as [Hfs Hfne Hfu Hfb _ _].
  unfold size. split_and!; try done.
  - lia.
  - by apply Forall_app.
  - intros w. rewrite !unigramFreq_freq. split; by apply freq_nonneg.
  - intros w1 w2. rewrite !bigramFreq_freq. split; by apply freq_nonneg.
Qed.

(** X5.  Eviction loses nothing: after any sequence of [add] calls on a new
    [HistoryBigram], the sizes of the two pools add up to the number of
    non-empty sentences added, and for every word and every key the counts of
    the two pools add up to the number of occurrences in all the sentences
    added. *)
Theorem adds_conserve_counts (ss : list (list string)) :
  let d := adds ss newHistoryBigram in
  size (recentPool_ d) + size (finalPool_ d)
  = Z.of_nat (length (filter (λ s, s ≠ []) ss))
  ∧ (∀ w, unigramFreq (recentPool_ d) w + unigramFreq (finalPool_ d) w
          = total (occurrences w) ss)
  ∧ (∀ w1 w2, bigramFreq (recentPool_ d) w1 w2 + bigramFreq (finalPool_ d) w1 w2
              = total (key_occurrences (bigramKey w1 w2)) ss).
Proof.
  cbv zeta. rewrite adds_filter.
  set (fs := filter (λ s, s ≠ []) ss).
  destruct (adds_history fs (filter_nonempty ss)) as (Hrec & Hfin & _).
  pose proof (well_formed_adds fs _ well_formed_new) as [Hr Hf _ _ _].
  destruct Hr as [Hrs _ _ _ Hru Hrb], Hf as [Hfs _ _ _ Hfu Hfb].
  set (k := (length fs - capacity)%nat) in *.
  assert (Hsum : ∀ f, total f (rev (drop k fs)) + total f (rev (take k fs))
                      = total f fs).
  { intros f. rewrite !total_rev. rewrite <- (take_drop k fs) at 3.
    rewrite total_app. lia. }
  split_and!.
  - unfold size. rewrite Hrs, Hfs, Hrec, Hfin, !length_rev, length_drop, length_take.
    lia.
  - intros w. rewrite !unigramFreq_freq, Hru, Hfu, Hrec, Hfin, Hsum.
    by apply total_filter.
  - intros w1 w2. rewrite !bigramFreq_freq, Hrb, Hfb, Hrec, Hfin, Hsum.
    by apply total_filter.
Qed.

Lemma total_absent (w : string) (ss : list (list string)) :
  (∀ s, s ∈ ss → w ∉ s) → total (occurrences w) ss = 0.
Proof.
  induction ss as [|s ss IH]; intros Habs; [done|].
  cbn [total fold_right]. fold (total (occurrences w) ss).
  rewrite occurrences_absent by (apply Habs; left).
  rewrite IH; [done|]. intros s' Hs'. apply Habs. by right.
Qed.

Lemma blend_of_zero :
  Float32.eqb (Float32.add (Float32.of_Z 0) (Float32.mul (Float32.of_Z 0) decay))
              (Float32.of_Z 0) = true.
Proof. vm_compute. reflexivity. Qed.

(** X6.  A word that is in none of the sentences added to a new
    [HistoryBigram] is unknown, and so is the empty word in every state. *)
Theorem never_added_is_unknown :
  (∀ (ss : list (list string)) (w : string),
      (∀ s, s ∈ ss → w ∉ s) →
      HistoryBigram_isUnknown (adds ss newHistoryBigram) w = true)
  ∧ (∀ d : HistoryBigramPrivate, HistoryBigram_isUnknown d "" = true).
Proof.
  split; [|done].
  intros ss w Habs.
  destruct (adds_conserve_counts ss) as (_ & Hsum & _).
  destruct (adds_keep_invariants ss) as (_ & _ & _ & _ & _ & _ & _ & _ & _ & _ & Hpos & _).
  specialize (Hsum w). specialize (Hpos w). rewrite total_absent in Hsum by done.
  unfold HistoryBigram_isUnknown, Private_unigramFreq.
  replace (unigramFreq (recentPool_ (adds ss newHistoryBigram)) w) with 0 by lia.
  replace (unigramFreq (finalPool_ (adds ss newHistoryBigram)) w) with 0 by lia.
  rewrite blend_of_zero. apply orb_true_r.
Qed.

Lemma never_added_is_unknown_witness :
  HistoryBigram_isUnknown (adds [["a"; "b"]; ["c"]]%string newHistoryBigram) "d" = true.
Proof.
  apply (proj1 never_added_is_unknown).
  intros s Hs. repeat (apply elem_of_cons in Hs as [->|Hs]);
    [| |by apply elem_of_nil in Hs];
    intros Hd; repeat (apply elem_of_cons in Hd as [Hd|Hd]; [discriminate Hd|]);
    by apply elem_of_nil in Hd.
Defined.

(** ** [clear] *)

Lemma adds_pools_indep (ss : list (list string)) (d d' : HistoryBigramPrivate) :
  finalPool_ d = finalPool_ d' → recentPool_ d = recentPool_ d' →
  finalPool_ (adds ss d) = finalPool_ (adds ss d')
  ∧ recentPool_ (adds ss d) = recentPool_ (adds ss d').
Proof.
  revert d d'. induction ss as [|s ss IH]; intros d d' Hf Hr; [done|].
  rewrite !adds_cons. apply IH.
  - pose proof (add_pools s d) as H1. pose proof (add_pools s d') as H2.
    rewrite Hf, Hr, H2 in H1. by injection H1.
  - pose proof (add_pools s d) as H1. pose proof (add_pools s d') as H2.
    rewrite Hf, Hr, H2 in H1. by injection H1.
Qed.

Lemma unigramFreq_clear (p : HistoryBigramPool) (w : string) :
  unigramFreq (clear p) w = 0.
Proof.
  unfold unigramFreq, DATrie.exactMatchSearch, clear, DATrie.clear.
  cbn [unigram_]. by rewrite lookup_empty.
Qed.

Lemma bigramFreq_clear (p : HistoryBigramPool) (w1 w2 : string) :
  bigramFreq (clear p) w1 w2 = 0.
Proof.
  unfold bigramFreq, DATrie.exactMatchSearch, clear, DATrie.clear.
  cbn [bigram_]. by rewrite lookup_empty.
Qed.

(** X7.  After [clear] a [HistoryBigram] behaves as a new one: every later
    sequence of [add] calls gives the pools that it gives on a new
    [HistoryBigram].  The unknown floor is not reset. *)
Theorem clear_then_adds (d : HistoryBigramPrivate) (ss : list (list string)) :
  maxSize_ (recentPool_ d) = 8192 → maxSize_ (finalPool_ d) = 0 →
  recentPool_ (adds ss (HistoryBigram_clear d)) = recentPool_ (adds ss newHistoryBigram)
  ∧ finalPool_ (adds ss (HistoryBigram_clear d)) = finalPool_ (adds ss newHistoryBigram)
  ∧ unknown_ (adds ss (HistoryBigram_clear d)) = unknown_ d.
Proof.
  intros Hrm Hfm.
  destruct (adds_pools_indep ss (HistoryBigram_clear d) newHistoryBigram) as [Hf Hr].
  - unfold HistoryBigram_clear, clear. cbn [finalPool_]. by rewrite Hfm.
  - unfold HistoryBigram_clear, clear. cbn [recentPool_]. by rewrite Hrm.
  - split_and!; [done|done|]. by rewrite adds_unknown.
Qed.

Lemma clear_then_adds_witness :
  recentPool_ (adds [["a"]]%string
                 (HistoryBigram_clear (adds [["z"; "z"]]%string newHistoryBigram)))
  = recentPool_ (adds [["a"]]%string newHistoryBigram).
Proof.
  apply (clear_then_adds (adds [["z"; "z"]]%string newHistoryBigram) [["a"]]%string);
    reflexivity.
Defined.

(** X8.  On a cleared [HistoryBigram] (and so on a new one) every word is
    unknown and [score] is the unknown floor for every pair of words,
    whatever [log10] is: the probability is 0. *)
Theorem cleared_scores_floor (d : HistoryBigramPrivate) :
  (∀ w, HistoryBigram_isUnknown (HistoryBigram_clear d) w = true)
  ∧ (∀ prev cur, score_pr (HistoryBigram_clear d) prev cur = Float32.zero)
  ∧ (∀ log10 prev cur,
        HistoryBigram_score log10 (HistoryBigram_clear d) prev cur = unknown_ d).
Proof.
  assert (Hpr : ∀ prev cur, score_pr (HistoryBigram_clear d) prev cur = Float32.zero).
  { intros prev cur.
    unfold score_pr, Private_unigramFreq, Private_bigramFreq, Private_size,
      HistoryBigram_clear.
    cbn [recentPool_ finalPool_].
    rewrite !unigramFreq_clear, !bigramFreq_clear.
    unfold size, clear. cbn [size_]. vm_compute. reflexivity. }
  split_and!.
  - intros w. unfold HistoryBigram_isUnknown, Private_unigramFreq, HistoryBigram_clear.
    cbn [recentPool_ finalPool_]. rewrite !unigramFreq_clear, blend_of_zero.
    apply orb_true_r.
  - exact Hpr.
  - intros log10 prev cur. unfold HistoryBigram_score. rewrite Hpr. reflexivity.
Qed.

(** ** Saving a history and loading it *)

Lemma filter_fits (ss : list (list string)) :
  Forall fits ss → Forall fits (filter (λ s, s ≠ []) ss).
Proof.
  rewrite !Forall_forall. intros Hss s Hs.
  apply list_elem_of_filter in Hs as [_ Hs]. by apply Hss.
Qed.

Lemma load_saved_into (d : HistoryBigramPrivate) (ss : list (list string)) :
  maxSize_ (recentPool_ d) = 8192 → maxSize_ (finalPool_ d) = 0 →
  Forall fits ss →
  HistoryBigram_load (HistoryBigram_save (adds ss newHistoryBigram)) d
  = (Some [],
     mkPrivate (mkPool 0 0 [] (unigram_ (finalPool_ (adds ss newHistoryBigram)))
                              (bigram_ (finalPool_ (adds ss newHistoryBigram))))
               (recentPool_ (adds ss newHistoryBigram)) (unknown_ d)).
Proof.
  intros Hrm Hfm Hfits. pose proof capacity_Z as Hcap.
  rewrite (adds_filter ss). apply filter_fits in Hfits.
  pose proof (filter_nonempty ss) as Hall.
  set (fs := filter (λ s, s ≠ []) ss) in *. clearbody fs. clear ss.
  assert (Hlast : Forall fits (drop (length fs - capacity) fs)) by by apply Forall_drop.
  rewrite (save_writes_oldest_first fs Hall).
  set (saved := adds fs newHistoryBigram).
  unfold HistoryBigram_load, load. cbn [clear maxSize_]. rewrite Hrm.
  change (8192 =? 0) with false. cbv iota.
  rewrite unmarshall_marshall by lia.
  replace (Z.to_nat (Z.min (Z.of_nat (length fs)) 8192))
    with (length (drop (length fs - capacity) fs) + 0)%nat
    by (rewrite length_drop; lia).
  set (d0 := mkPrivate (finalPool_ d) (clear (recentPool_ d)) (unknown_ d)).
  change (clear (recentPool_ d)) with (recentPool_ d0).
  change (finalPool_ d) with (finalPool_ d0) at 1.
  rewrite load_sentences_saved by done.
  cbn [load_sentences].
  rewrite final_load_tries.
  2: { destruct (adds_maxSize (drop (length fs - capacity) fs) d0) as [_ ->].
       exact Hfm. }
  rewrite (adds_recent_indep _ d0 newHistoryBigram).
  2: { unfold d0, clear. cbn [recentPool_]. by rewrite Hrm. }
  by rewrite (recent_pool_of_last fs Hall).
Qed.

(** X9.  [load] replaces the history of its target.  When the stream is what
    [save] wrote for the history reached by any sequence of [add] calls (with
    sentences that fit the 32-bit length fields), [load] into any
    [HistoryBigram] succeeds, consumes the whole stream, and leaves the saved
    recent pool and the two saved tries of the final pool; nothing of what
    the target held before is left but its unknown floor, and the size of
    the final pool is 0. *)
Theorem load_replaces_history (d : HistoryBigramPrivate) (ss : list (list string)) :
  maxSize_ (recentPool_ d) = 8192 → maxSize_ (finalPool_ d) = 0 →
  Forall fits ss →
  let saved := adds ss newHistoryBigram in
  let r := HistoryBigram_load (HistoryBigram_save saved) d in
  fst r = Some []
  ∧ recentPool_ (snd r) = recentPool_ saved
  ∧ unigram_ (finalPool_ (snd r)) = unigram_ (finalPool_ saved)
  ∧ bigram_ (finalPool_ (snd r)) = bigram_ (finalPool_ saved)
  ∧ size (finalPool_ (snd r)) = 0
  ∧ recent_ (finalPool_ (snd r)) = []
  ∧ unknown_ (snd r) = unknown_ d.
Proof.
  intros Hrm Hfm Hfits saved r. subst r saved.
  rewrite load_saved_into by done. by split_and!.
Qed.

Lemma load_replaces_history_witness :
  recentPool_ (snd (HistoryBigram_load
                      (HistoryBigram_save (adds [["a"; "b"]]%string newHistoryBigram))
                      (adds [["z"]]%string newHistoryBigram)))
  = recentPool_ (adds [["a"; "b"]]%string newHistoryBigram).
Proof.
  apply (load_replaces_history (adds [["z"]]%string newHistoryBigram)
           [["a"; "b"]]%string); [reflexivity|reflexivity|].
  repeat constructor; vm_compute; reflexivity.
Defined.

(** X10.  As long as no sentence was evicted (at most 8192 non-empty
    sentences were added to a new [HistoryBigram]), [save] and then [load]
    into a new [HistoryBigram] give back the very same state, and so the
    same [score] for every pair of words. *)
Theorem save_load_identity_small (ss : list (list string)) :
  Forall fits ss →
  Z.of_nat (length (filter (λ s, s ≠ []) ss)) ≤ 8192 →
  let d := adds ss newHistoryBigram in
  HistoryBigram_load (HistoryBigram_save d) newHistoryBigram = (Some [], d)
  ∧ ∀ log10 prev cur,
      HistoryBigram_score log10
        (snd (HistoryBigram_load (HistoryBigram_save d) newHistoryBigram)) prev cur
      = HistoryBigram_score log10 d prev cur.
Proof.
  intros Hfits Hlen d. pose proof capacity_Z as Hcap.
  assert (Hload : HistoryBigram_load (HistoryBigram_save d) newHistoryBigram
                  = (Some [], d)).
  { subst d. rewrite load_saved_into by done.
    rewrite (adds_filter ss) in *.
    set (fs := filter (λ s, s ≠ []) ss) in *.
    destruct (adds_history fs (filter_nonempty ss)) as (_ & Hfin & Hunk).
    pose proof (well_formed_adds fs _ well_formed_new) as [_ Hf _ Hfm _].
    replace (length fs - capacity)%nat with 0%nat in Hfin by lia.
    rewrite take_0 in Hfin.
    assert (Hnew : finalPool_ (adds fs newHistoryBigram) = newPool 0).
    { apply counted_ext; done || apply counted_newPool. }
    rewrite Hnew. cbn [newPool unigram_ bigram_].
    destruct (adds fs newHistoryBigram) as [f r u].
    cbn [finalPool_ recentPool_ unknown_] in *. by subst. }
  split; [exact Hload|]. intros log10 prev cur. by rewrite Hload.
Qed.

Lemma save_load_identity_small_witness :
  HistoryBigram_load
    (HistoryBigram_save (adds [["a"; "b"]; []; ["a"]]%string newHistoryBigram))
    newHistoryBigram
  = (Some [], adds [["a"; "b"]; []; ["a"]]%string newHistoryBigram).
Proof.
  apply (save_load_identity_small [["a"; "b"]; []; ["a"]]%string).
  - repeat constructor; vm_compute; reflexivity.
  - vm_compute. discriminate.
Defined.

(** X11.  For every history, [save] and then [load] into a new
    [HistoryBigram] keep the blended unigram and bigram counts of every word
    and pair, and so [isUnknown] of every word; what changes is the size of
    the final pool. *)
Theorem save_load_keeps_counts (ss : list (list string)) :
  Forall fits ss →
  let d := adds ss newHistoryBigram in
  let d' := snd (HistoryBigram_load (HistoryBigram_save d) newHistoryBigram) in
  (∀ w, Private_unigramFreq d' w = Private_unigramFreq d w)
  ∧ (∀ w1 w2, Private_bigramFreq d' w1 w2 = Private_bigramFreq d w1 w2)
  ∧ (∀ w, HistoryBigram_isUnknown d' w = HistoryBigram_isUnknown d w)
  ∧ size (recentPool_ d') = size (recentPool_ d)
  ∧ size (finalPool_ d') = 0.
Proof.
  intros Hfits d d'. subst d'. subst d.
  rewrite load_saved_into by done.
  set (d := adds ss newHistoryBigram).
  unfold HistoryBigram_isUnknown, Private_unigramFreq, Private_bigramFreq.
  cbn [snd recentPool_ finalPool_].
  by split_and!.
Qed.

Lemma save_load_keeps_counts_witness :
  HistoryBigram_isUnknown
    (snd (HistoryBigram_load
            (HistoryBigram_save (adds [["a"; "b"]]%string newHistoryBigram))
            newHistoryBigram)) "a"
  = HistoryBigram_isUnknown (adds [["a"; "b"]]%string newHistoryBigram) "a".
Proof.
  assert (Hfits : Forall fits [["a"; "b"]]%string)
    by (repeat constructor; vm_compute; reflexivity).
  exact (proj1 (proj2 (proj2 (save_load_keeps_counts _ Hfits))) "a"%string).
Defined.

(** ** What [load] accepts *)

Lemma read_inv (n : nat) (input : Stream.t) (cs : list ascii) (rest : Stream.t) :
  Stream.read n input = Some (cs, rest) →
  input = map Stream.Char cs ++ rest ∧ length cs = n.
Proof.
  revert input cs rest. induction n as [|n IH]; intros input cs rest Hread.
  - injection Hread as <- <-. done.
  - cbn [Stream.read] in Hread.
    destruct input as [|[c|trie] input]; try discriminate.
    destruct (Stream.read n input) as [[cs' rest']|] eqn:Hn; try discriminate.
    injection Hread as <- <-. destruct (IH _ _ _ Hn) as [-> <-]. done.
Qed.

Lemma Z_of_char_bounds (c : ascii) : 0 ≤ Stream.Z_of_char c < 256.
Proof.
  unfold Stream.Z_of_char. pose proof (N_ascii_bounded c). lia.
Qed.

Lemma char_of_Z_eq (z : Z) (c : ascii) :
  z mod 256 = Stream.Z_of_char c → Stream.char_of_Z z = c.
Proof.
  intros Hz. unfold Stream.char_of_Z. rewrite Hz. unfold Stream.Z_of_char.
  by rewrite N2Z.id, ascii_N_embedding.
Qed.

Lemma unmarshall_inv (input : Stream.t) (n : Z) (rest : Stream.t) :
  Stream.unmarshall input = Some (n, rest) →
  input = Stream.marshall n ++ rest ∧ 0 ≤ n < 2 ^ 32.
Proof.
  unfold Stream.unmarshall. intros Hun.
  destruct (Stream.read 4 input) as [[cs rest']|] eqn:Hread; try discriminate.
  destruct cs as [|b0 [|b1 [|b2 [|b3 [|b4 cs]]]]]; try discriminate.
  injection Hun as <- <-.
  destruct (read_inv _ _ _ _ Hread) as [-> _].
  pose proof (Z_of_char_bounds b0). pose proof (Z_of_char_bounds b1).
  pose proof (Z_of_char_bounds b2). pose proof (Z_of_char_bounds b3).
  set (z0 := Stream.Z_of_char b0) in *. set (z1 := Stream.Z_of_char b1) in *.
  set (z2 := Stream.Z_of_char b2) in *. set (z3 := Stream.Z_of_char b3) in *.
  change (2 ^ 32) with 4294967296.
  split; [|lia].
  unfold Stream.marshall. cbn [map app].
  rewrite (char_of_Z_eq _ b0), (char_of_Z_eq _ b1), (char_of_Z_eq _ b2),
    (char_of_Z_eq _ b3); [done|..]; fold z0 z1 z2 z3;
    Z.div_mod_to_equations; lia.
Qed.

Lemma length_string_of_list_ascii (cs : list ascii) :
  String.length (string_of_list_ascii cs) = length cs.
Proof. induction cs as [|c cs IH]; [done|]. cbn. by rewrite IH. Qed.

Lemma load_words_inv (size : nat) (input : Stream.t) (acc s : list string)
    (rest : Stream.t) :
  load_words size input acc = Some (s, rest) →
  ∃ ws, s = acc ++ ws ∧ length ws = size
        ∧ Forall (λ w, Z.of_nat (String.length w) < 2 ^ 32) ws
        ∧ input = flat_map save_word ws ++ rest.
Proof.
  revert input acc. induction size as [|size IH]; intros input acc Hload.
  - injection Hload as <- <-. exists []. by rewrite app_nil_r.
  - cbn [load_words] in Hload.
    destruct (Stream.unmarshall input) as [[len in1]|] eqn:Hun; try discriminate.
    destruct (Stream.read (Z.to_nat len) in1) as [[buffer in2]|] eqn:Hread;
      try discriminate.
    destruct (unmarshall_inv _ _ _ Hun) as [-> Hlen].
    destruct (read_inv _ _ _ _ Hread) as [-> Hbuf].
    destruct (IH _ _ Hload) as (ws & -> & <- & Hws & ->).
    exists (string_of_list_ascii buffer :: ws).
    assert (Hw : Z.of_nat (String.length (string_of_list_ascii buffer)) = len).
    { rewrite length_string_of_list_ascii, Hbuf. lia. }
    split_and!.
    + by rewrite <- app_assoc.
    + done.
    + constructor; [lia|done].
    + cbn [flat_map]. unfold save_word, Stream.write.
      rewrite Hw, Z.mod_small, list_ascii_of_string_of_list_ascii by lia.
      by rewrite <- !app_assoc.
Qed.

Lemma load_sentence_inv (input : Stream.t) (s : list string) (rest : Stream.t) :
  load_sentence input = Some (s, rest) →
  fits s ∧ input = save_sentence s ++ rest.
Proof.
  unfold load_sentence. intros Hload.
  destruct (Stream.unmarshall input) as [[size in1]|] eqn:Hun; try discriminate.
  destruct (unmarshall_inv _ _ _ Hun) as [-> Hsize].
  destruct (load_words_inv _ _ _ _ _ Hload) as (ws & -> & Hlen & Hws & ->).
  cbn [app]. split.
  - split; [lia|done].
  - unfold save_sentence. rewrite Hlen, Z2Nat.id, Z.mod_small by lia.
    by rewrite <- app_assoc.
Qed.

(** X12.  The record of a sentence: reading a sentence from a stream succeeds
    with the sentence [s] and the rest [rest] exactly when [s] fits the
    32-bit length fields and the stream is what [save] writes for [s],
    followed by [rest]. *)
Theorem sentence_record_exact (input : Stream.t) (s : list string) (rest : Stream.t) :
  load_sentence input = Some (s, rest)
  ↔ fits s ∧ input = save_sentence s ++ rest.
Proof.
  split.
  - apply load_sentence_inv.
  - intros [Hfits ->]. by apply load_sentence_saved.
Qed.

Lemma sentence_record_exact_witness :
  load_sentence (save_sentence ["ni"; "hao"]%string ++ [Stream.Char "x"])
  = Some (["ni"; "hao"]%string, [Stream.Char "x"]).
Proof.
  apply sentence_record_exact. split; [|reflexivity].
  repeat constructor; vm_compute; reflexivity.
Defined.

Lemma load_sentences_inv (count : nat) (input : Stream.t) (d : HistoryBigramPrivate)
    (rest : Stream.t) (p' f' : HistoryBigramPool) :
  load_sentences final_add count input (recentPool_ d) (finalPool_ d)
  = (Some rest, p', f') →
  ∃ ss, length ss = count ∧ Forall fits ss
        ∧ input = flat_map save_sentence ss ++ rest
        ∧ p' = recentPool_ (adds ss d) ∧ f' = finalPool_ (adds ss d).
Proof.
  revert input d. induction count as [|count IH]; intros input d Hload.
  - injection Hload as <- <- <-. by exists [].
  - cbn [load_sentences] in Hload.
    destruct (load_sentence input) as [[s in1]|] eqn:Hs; try discriminate.
    destruct (load_sentence_inv _ _ _ Hs) as [Hfit ->].
    rewrite add_pools in Hload.
    destruct (IH _ _ Hload) as (ss & <- & Hss & -> & -> & ->).
    exists (s :: ss). split_and!; try done.
    + by constructor.
    + cbn [flat_map]. by rewrite <- app_assoc.
Qed.

Lemma final_load_inv (input : Stream.t) (f f' : HistoryBigramPool) (rest : Stream.t) :
  maxSize_ f = 0 →
  final_load input f = (Some rest, f') →
  ∃ u b, input = Stream.Blob u :: Stream.Blob b :: rest ∧ f' = mkPool 0 0 [] u b.
Proof.
  intros Hmax. unfold final_load, load. cbn [clear maxSize_]. rewrite Hmax.
  change (0 =? 0) with true. cbv iota. unfold Stream.trie_load.
  destruct input as [|[c|u] input]; try discriminate.
  destruct input as [|[c|b] input]; try discriminate.
  intros Hload. injection Hload as <- <-. exists u, b. split; [done|].
  unfold with_bigram, with_unigram, clear. cbn. by rewrite Hmax.
Qed.

(** X13.  [load] succeeds only on the format of [save]: when
    [HistoryBigram::load] returns without an error, the stream it consumed
    is a count, the records of that many sentences, and two saved tries;
    the new state has these sentences added in stream order to the cleared
    recent pool, and a final pool that holds the two tries, with size 0. *)
Theorem load_accepts_only_saved_format (d d' : HistoryBigramPrivate)
    (input rest : Stream.t) :
  maxSize_ (recentPool_ d) ≠ 0 → maxSize_ (finalPool_ d) = 0 →
  HistoryBigram_load input d = (Some rest, d') →
  ∃ (ss : list (list string)) (u b : gmap string Z),
    Forall fits ss
    ∧ Z.of_nat (length ss) < 2 ^ 32
    ∧ input = Stream.marshall (Z.of_nat (length ss))
                ++ flat_map save_sentence ss
                ++ Stream.Blob u :: Stream.Blob b :: rest
    ∧ d' = mkPrivate (mkPool 0 0 [] u b)
             (recentPool_ (adds ss (mkPrivate (finalPool_ d) (clear (recentPool_ d))
                                              (unknown_ d))))
             (unknown_ d).
Proof.
  intros Hrm Hfm. unfold HistoryBigram_load, load. cbn [clear maxSize_].
  destruct (Z.eqb_spec (maxSize_ (recentPool_ d)) 0) as [|_]; [done|].
  destruct (Stream.unmarshall input) as [[count in1]|] eqn:Hun; [|discriminate].
  destruct (unmarshall_inv _ _ _ Hun) as [-> Hcount].
  set (d0 := mkPrivate (finalPool_ d) (clear (recentPool_ d)) (unknown_ d)).
  change (clear (recentPool_ d)) with (recentPool_ d0).
  change (finalPool_ d) with (finalPool_ d0) at 1.
  destruct (load_sentences final_add (Z.to_nat count) in1
              (recentPool_ d0) (finalPool_ d0)) as [[[in2|] p1] f1] eqn:Hload;
    [|discriminate].
  destruct (load_sentences_inv _ _ _ _ _ _ Hload) as (ss & Hlen & Hss & -> & -> & ->).
  destruct (final_load in2 (finalPool_ (adds ss d0))) as [r f2] eqn:Hfinal.
  intros Hres. injection Hres as -> <-.
  destruct (final_load_inv _ _ _ _ (eq_trans (proj2 (adds_maxSize ss d0)) Hfm) Hfinal)
    as (u & b & -> & ->).
  exists ss, u, b. split_and!; try done; [lia|].
  by rewrite Hlen, Z2Nat.id by lia.
Qed.

Lemma load_accepts_only_saved_format_witness :
  ∃ (ss : list (list string)) (u b : gmap string Z),
    Forall fits ss
    ∧ Z.of_nat (length ss) < 2 ^ 32
    ∧ HistoryBigram_save (adds [["a"]]%string newHistoryBigram)
      = Stream.marshall (Z.of_nat (length ss))
          ++ flat_map save_sentence ss ++ Stream.Blob u :: Stream.Blob b :: []
    ∧ snd (HistoryBigram_load (HistoryBigram_save (adds [["a"]]%string newHistoryBigram))
             newHistoryBigram)
      = mkPrivate (mkPool 0 0 [] u b)
          (recentPool_ (adds ss (mkPrivate (finalPool_ newHistoryBigram)
                                   (clear (recentPool_ newHistoryBigram))
                                   (unknown_ newHistoryBigram))))
          (unknown_ newHistoryBigram).
Proof.
  apply (load_accepts_only_saved_format newHistoryBigram); [discriminate|reflexivity|].
  vm_compute. reflexivity.
Defined.

(** ** The order of eviction *)

(** X14.  Eviction is first in, first out: after any sequence of [add]
    calls on a new [HistoryBigram], the recent pool lists the last 8192
    non-empty sentences added, the newest first, and the final pool lists
    all the earlier ones, the newest first; the counts of the recent pool
    are the numbers of occurrences in these last 8192 sentences, and the
    counts of the final pool those in the earlier ones. *)
Theorem adds_split_history (ss : list (list string)) :
  let d := adds ss newHistoryBigram in
  let fs := filter (λ s, s ≠ []) ss in
  let recent := drop (length fs - capacity) fs in
  let earlier := take (length fs - capacity) fs in
  recent_ (recentPool_ d) = rev recent
  ∧ recent_ (finalPool_ d) = rev earlier
  ∧ (∀ w, unigramFreq (recentPool_ d) w = total (occurrences w) recent
          ∧ unigramFreq (finalPool_ d) w = total (occurrences w) earlier)
  ∧ (∀ w1 w2,
        bigramFreq (recentPool_ d) w1 w2
        = total (key_occurrences (bigramKey w1 w2)) recent
        ∧ bigramFreq (finalPool_ d) w1 w2
          = total (key_occurrences (bigramKey w1 w2)) earlier).
Proof.
  cbv zeta. rewrite adds_filter.
  destruct (adds_history _ (filter_nonempty ss)) as (Hrec & Hfin & _).
  pose proof (well_formed_adds (filter (λ s, s ≠ []) ss) _ well_formed_new)
    as [Hr Hf _ _ _].
  destruct Hr as [_ _ _ _ Hru Hrb], Hf as [_ _ _ _ Hfu Hfb].
  split_and!; try done.
  - intros w. rewrite !unigramFreq_freq, Hru, Hfu, Hrec, Hfin, !total_rev. done.
  - intros w1 w2. rewrite !bigramFreq_freq, Hrb, Hfb, Hrec, Hfin, !total_rev. done.
Qed.

(** ** A failure in the final tier *)

(** X15.  When the stream holds the announced sentence records and then
    fails to give the first trie, [load] fails after it has added every
    sentence to the cleared recent pool and cleared the final pool: the
    recent pool is loaded, the final pool is empty, and the sentences that
    the loading evicted are lost. *)
Theorem load_failure_in_final_tier (d : HistoryBigramPrivate)
    (ss : list (list string)) (tail : Stream.t) :
  maxSize_ (recentPool_ d) ≠ 0 → maxSize_ (finalPool_ d) = 0 →
  Forall fits ss → Z.of_nat (length ss) < 2 ^ 32 →
  Stream.trie_load tail = None →
  let d0 := mkPrivate (finalPool_ d) (clear (recentPool_ d)) (unknown_ d) in
  HistoryBigram_load
    (Stream.marshall (Z.of_nat (length ss)) ++ flat_map save_sentence ss ++ tail) d
  = (None, mkPrivate (newPool 0) (recentPool_ (adds ss d0)) (unknown_ d)).
Proof.
  intros Hrm Hfm Hss Hlen Htail d0.
  unfold HistoryBigram_load, load. cbn [clear maxSize_].
  destruct (Z.eqb_spec (maxSize_ (recentPool_ d)) 0) as [|_]; [done|].
  rewrite unmarshall_marshall by lia.
  replace (Z.to_nat (Z.of_nat (length ss))) with (length ss + 0)%nat by lia.
  change (clear (recentPool_ d)) with (recentPool_ d0).
  change (finalPool_ d) with (finalPool_ d0) at 1.
  rewrite load_sentences_saved by done.
  cbn [load_sentences].
  unfold final_load, load. cbn [clear maxSize_].
  rewrite (proj2 (adds_maxSize ss d0)). cbn [d0 finalPool_]. rewrite Hfm.
  change (0 =? 0) with true. cbv iota. rewrite Htail.
  unfold clear. rewrite (proj2 (adds_maxSize ss d0)). cbn [d0 finalPool_].
  by rewrite Hfm.
Qed.

Lemma load_failure_in_final_tier_witness :
  HistoryBigram_load
    (Stream.marshall (Z.of_nat (length [["a"]]%string))
       ++ flat_map save_sentence [["a"]]%string ++ [])
    (adds [["z"]]%string newHistoryBigram)
  = (None,
     mkPrivate (newPool 0)
       (recentPool_
          (adds [["a"]]%string
             (mkPrivate (finalPool_ (adds [["z"]]%string newHistoryBigram))
                (clear (recentPool_ (adds [["z"]]%string newHistoryBigram)))
                (unknown_ (adds [["z"]]%string newHistoryBigram)))))
       (unknown_ (adds [["z"]]%string newHistoryBigram))).
Proof.
  apply (load_failure_in_final_tier (adds [["z"]]%string newHistoryBigram)
           [["a"]]%string []).
  - discriminate.
  - reflexivity.
  - repeat constructor; vm_compute; reflexivity.
  - vm_compute. reflexivity.
  - reflexivity.
Defined.

(** ** The order of the sentences below the capacity *)

Lemma total_Permutation (f : list string → Z) (l1 l2 : list (list string)) :
  l1 ≡ₚ l2 → total f l1 = total f l2.
Proof.
  induction 1 as [|s l1 l2 _ IH|s1 s2 l|l1 l2 l3 _ IH1 _ IH2]; simpl; lia.
Qed.

Lemma score_ext (log10 : Float32.float → Float32.float) (d d' : HistoryBigramPrivate)
    (prev cur : string) :
  (∀ w, unigramFreq (recentPool_ d) w = unigramFreq (recentPool_ d') w) →
  (∀ w, unigramFreq (finalPool_ d) w = unigramFreq (finalPool_ d') w) →
  (∀ w1 w2, bigramFreq (recentPool_ d) w1 w2 = bigramFreq (recentPool_ d') w1 w2) →
  (∀ w1 w2, bigramFreq (finalPool_ d) w1 w2 = bigramFreq (finalPool_ d') w1 w2) →
  size (recentPool_ d) = size (recentPool_ d') →
  size (finalPool_ d) = size (finalPool_ d') →
  unknown_ d = unknown_ d' →
  HistoryBigram_score log10 d prev cur = HistoryBigram_score log10 d' prev cur.
Proof.
  intros Hru Hfu Hrb Hfb Hrs Hfs Hunk.
  unfold HistoryBigram_score, score_pr, Private_unigramFreq, Private_bigramFreq,
    Private_size.
  by rewrite !Hru, !Hfu, Hrb, Hfb, Hrs, Hfs, Hunk.
Qed.

(** X16.  As long as nothing is evicted (at most 8192 non-empty sentences),
    the order in which the sentences are added does not matter: two
    sequences that are permutations of each other give the same tries in
    the recent pool, the same sizes, and the same [score] and [isUnknown]
    for all words. *)
Theorem score_ignores_order (ss ss' : list (list string)) :
  ss ≡ₚ ss' →
  Z.of_nat (length (filter (λ s, s ≠ []) ss)) ≤ 8192 →
  let d := adds ss newHistoryBigram in
  let d' := adds ss' newHistoryBigram in
  unigram_ (recentPool_ d) = unigram_ (recentPool_ d')
  ∧ bigram_ (recentPool_ d) = bigram_ (recentPool_ d')
  ∧ size (recentPool_ d) = size (recentPool_ d')
  ∧ finalPool_ d = finalPool_ d'
  ∧ (∀ log10 prev cur,
        HistoryBigram_score log10 d prev cur = HistoryBigram_score log10 d' prev cur)
  ∧ (∀ w, HistoryBigram_isUnknown d w = HistoryBigram_isUnknown d' w).
Proof.
  intros Hperm Hlen. cbv zeta. pose proof capacity_Z as Hcap.
  assert (Hfperm : filter (λ s, s ≠ []) ss ≡ₚ filter (λ s, s ≠ []) ss')
    by by apply filter_Permutation.
  assert (Hlen' : length (filter (λ s, s ≠ []) ss')
                  = length (filter (λ s, s ≠ []) ss))
    by (symmetry; by apply Permutation_length).
  rewrite (adds_filter ss), (adds_filter ss').
  set (fs := filter (λ s, s ≠ []) ss) in *.
  set (fs' := filter (λ s, s ≠ []) ss') in *.
  destruct (adds_history fs (filter_nonempty ss)) as (Hrec & Hfin & Hunk).
  destruct (adds_history fs' (filter_nonempty ss')) as (Hrec' & Hfin' & Hunk').
  pose proof (well_formed_adds fs _ well_formed_new) as [Hr Hf _ Hfm _].
  pose proof (well_formed_adds fs' _ well_formed_new) as [Hr' Hf' _ Hfm' _].
  rewrite Hlen' in Hrec', Hfin'.
  replace (length fs - capacity)%nat with 0%nat in * by lia.
  rewrite drop_0 in Hrec, Hrec'. rewrite take_0 in Hfin, Hfin'.
  set (d := adds fs newHistoryBigram) in *.
  set (d' := adds fs' newHistoryBigram) in *.
  assert (Hfinal : finalPool_ d = finalPool_ d').
  { apply counted_ext; try done; congruence. }
  assert (Hu : unigram_ (recentPool_ d) = unigram_ (recentPool_ d')).
  { apply positive_ext; [apply Hr|apply Hr'|]. intros k.
    rewrite (counted_unigram _ Hr), (counted_unigram _ Hr'), Hrec, Hrec', !total_rev.
    by apply total_Permutation. }
  assert (Hb : bigram_ (recentPool_ d) = bigram_ (recentPool_ d')).
  { apply positive_ext; [apply Hr|apply Hr'|]. intros k.
    rewrite (counted_bigram _ Hr), (counted_bigram _ Hr'), Hrec, Hrec', !total_rev.
    by apply total_Permutation. }
  assert (Hs : size (recentPool_ d) = size (recentPool_ d')).
  { unfold size. rewrite (counted_size _ Hr), (counted_size _ Hr'), Hrec, Hrec'.
    rewrite !length_rev. lia. }
  assert (Hru : ∀ w, unigramFreq (recentPool_ d) w = unigramFreq (recentPool_ d') w).
  { intros w. by rewrite !unigramFreq_freq, Hu. }
  assert (Hrb : ∀ w1 w2, bigramFreq (recentPool_ d) w1 w2
                         = bigramFreq (recentPool_ d') w1 w2).
  { intros w1 w2. by rewrite !bigramFreq_freq, Hb. }
  split_and!; try done.
  - intros log10 prev cur. apply score_ext; try done.
    + intros w. by rewrite Hfinal.
    + intros w1 w2. by rewrite Hfinal.
    + by rewrite Hfinal.
    + congruence.
  - intros w. unfold HistoryBigram_isUnknown, Private_unigramFreq.
    by rewrite Hru, Hfinal.
Qed.

Lemma score_ignores_order_witness :
  HistoryBigram_score (λ x, x) (adds [["a"; "b"]; ["c"]]%string newHistoryBigram)
    "a" "b"
  = HistoryBigram_score (λ x, x) (adds [["c"]; ["a"; "b"]]%string newHistoryBigram)
      "a" "b".
Proof.
  assert (Hperm : [["a"; "b"]; ["c"]]%string ≡ₚ [["c"]; ["a"; "b"]]%string)
    by apply Permutation_swap.
  assert (Hlen : Z.of_nat (length (filter (λ s : list string, s ≠ [])
                                     [["a"; "b"]; ["c"]]%string)) ≤ 8192)
    by (vm_compute; discriminate).
  destruct (score_ignores_order _ _ Hperm Hlen) as (_ & _ & _ & _ & Hscore & _).
  apply Hscore.
Defined.

(** ** Candidates that the lattice-node factory keeps *)

Section Kept.

Import PinyinDecoder.
Context {State : Type} (model : LanguageModelBase).

(** X17.  The factory keeps every candidate whose word the model knows and
    every candidate whose encoded pinyin is not 2 bytes long (no data at
    all counts as 0 bytes), whatever the path, even an empty one, since the
    path is not looked at then; and on a non-empty path it keeps every
    candidate that starts at the start node of the graph and every
    candidate when [onlyPath] is set.  The node that is created has the
    encoded pinyin of the data. *)
Theorem createLatticeNodeImpl_keeps
    (graph : SegmentGraphBase) (word : string) (idx : WordIndex)
    (path : SegmentGraphPath) (state : State) (cost : Float32.float)
    (data : option PinyinLatticeNodePrivate) (onlyPath : bool) :
  let candidate := mkNode word idx path state cost data in
  isUnknown idx word = false
  ∨ String.length (encodedPinyin candidate) ≠ 2%nat
  ∨ (path ≠ [] ∧ (hd_error path = Some (start graph) ∨ onlyPath = true)) →
  createLatticeNodeImpl graph model word idx path state cost data onlyPath
  = Some candidate
  ∧ encodedPinyin candidate
    = match data with Some d => encodedPinyin_ d | None => ""%string end.
Proof.
  intros candidate Hkeep. split; [|done]. subst candidate.
  unfold createLatticeNodeImpl, encodedPinyin in *. cbn [d_ptr] in Hkeep.
  destruct (isUnknown idx word); [|done]. cbn [andb].
  destruct Hkeep as [Hk|[Hlen|[Hpath Hk]]]; [done| |].
  - destruct data as [[enc]|]; [|done]. cbn [encodedPinyin_] in *.
    destruct (Nat.eqb_spec (String.length enc) 2); [done|done].
  - destruct data as [[enc]|]; [|done]. cbn [encodedPinyin_].
    destruct (String.length enc =? 2)%nat; [|done]. cbn [andb].
    destruct path as [|front rest]; [done|]. cbn [hd_error] in Hk.
    destruct Hk as [Hfront| ->].
    + injection Hfront as ->. by rewrite Z.eqb_refl.
    + by rewrite andb_false_r.
Qed.

End Kept.

Lemma createLatticeNodeImpl_keeps_witness :
  let model := PinyinDecoder.Build_LanguageModelBase (λ _ _, true) in
  let graph := PinyinDecoder.mkGraph 0 in
  let data := Some (PinyinDecoder.mkData "ab") in
  PinyinDecoder.createLatticeNodeImpl graph model "w" 7 [5] tt Float32.zero data true
  = Some (PinyinDecoder.mkNode "w"%string 7 [5] tt Float32.zero data).
Proof.
  intros model graph data.
  apply (createLatticeNodeImpl_keeps model graph "w"%string 7 [5] tt Float32.zero
           data true).
  right. right. split; [discriminate|]. right. reflexivity.
Defined.

(** ** A load that fails *)

(** The sentence lists after [add] calls on a [HistoryBigram] whose recent
    pool is empty, whatever its final pool holds: the recent pool lists
    the last 8192 sentences, and the final pool has received the earlier
    ones, in the order in which they were added. *)
Lemma adds_from_cleared (d : HistoryBigramPrivate) (fs : list (list string)) :
  maxSize_ (recentPool_ d) = 8192 → recent_ (recentPool_ d) = [] →
  Forall (λ s, s ≠ []) fs →
  recent_ (recentPool_ (adds fs d)) = rev (drop (length fs - capacity) fs)
  ∧ finalPool_ (adds fs d)
    = fold_left (λ f s, final_add s f) (take (length fs - capacity) fs) (finalPool_ d).
Proof.
  intros Hrm Hnil. induction fs as [|s fs IH] using rev_ind; intros Hall.
  { rewrite take_nil. by split. }
  apply Forall_app in Hall as [Hfs Hs]. inversion_clear Hs as [|? ? Hs' _].
  destruct (IH Hfs) as (Hrec & Hfin). clear IH.
  pose proof capacity_Z as Hcap.
  pose proof (proj1 (adds_maxSize fs d)) as Hrm'. rewrite Hrm in Hrm'.
  rewrite adds_snoc, length_app. cbn [length].
  set (d1 := adds fs d) in *.
  destruct (decide (length fs < capacity)%nat) as [Hlt|Hge].
  - rewrite HistoryBigram_add_below; [|done|].
    2: { rewrite Hrm', Hrec, length_rev, length_drop. lia. }
    cbn [recentPool_ finalPool_].
    destruct (insert_frame s (recentPool_ d1)) as (_ & _ & ->).
    rewrite Hrec, Hfin.
    replace (length fs + 1 - capacity)%nat with 0%nat by lia.
    replace (length fs - capacity)%nat with 0%nat by lia.
    rewrite !drop_0, !take_0, rev_app_distr. done.
  - set (k := (length fs - capacity)%nat) in *.
    assert (Hk : (k < length fs)%nat) by lia.
    destruct (lookup_lt_is_Some_2 fs k Hk) as [old Hold].
    assert (Hrest : recent_ (recentPool_ d1) = rev (drop (S k) fs) ++ [old]).
    { rewrite Hrec, (drop_S _ _ _ Hold). reflexivity. }
    rewrite (HistoryBigram_add_full _ _ _ old Hs' Hrest).
    2: { rewrite Hrm', Hrec, length_rev, length_drop. lia. }
    cbn [recentPool_ finalPool_].
    destruct (insert_frame s (pop_back (remove old (recentPool_ d1)))) as (_ & _ & ->).
    destruct (evicted_frame old (recentPool_ d1)) as (_ & _ & -> & _).
    rewrite Hrest, removelast_last, Hfin.
    replace (length fs + 1 - capacity)%nat with (S k) by lia.
    rewrite drop_app_le, take_app_le by lia.
    rewrite rev_app_distr, (take_S_r _ _ _ Hold), fold_left_app. done.
Qed.

(** C5, amended.  [load] clears the recent pool, not the final pool, and
    then adds every sentence as soon as it is read.  When the stream
    announces [count] sentences, holds the records of fewer sentences [ss]
    and then fails to give the next record, [load] fails and leaves the
    [HistoryBigram] in the state reached by adding the sentences [ss], in
    the order of the stream, to the cleared recent pool and the final pool
    as it was.  In a [HistoryBigram] (capacity 8192) the recent pool is
    then the one that these sentences build in a new [HistoryBigram]: it
    lists the last 8192 non-empty sentences of [ss] (all of them when they
    are fewer), with their counts and their number as size; the final pool
    is its former self with the earlier non-empty sentences of [ss], which
    were evicted, added to it in order. *)
Theorem load_failure_keeps_read_sentences
    (d : HistoryBigramPrivate) (count : Z) (ss : list (list string))
    (tail : Stream.t) :
  maxSize_ (recentPool_ d) ≠ 0 →
  Forall fits ss →
  Z.of_nat (length ss) < count < 2 ^ 32 →
  load_sentence tail = None →
  let d0 := mkPrivate (finalPool_ d) (clear (recentPool_ d)) (unknown_ d) in
  let after := adds ss d0 in
  let fs := filter (λ s, s ≠ []) ss in
  let kept := drop (length fs - capacity) fs in
  let evicted := take (length fs - capacity) fs in
  HistoryBigram_load (Stream.marshall count ++ flat_map save_sentence ss ++ tail) d
  = (None, after)
  ∧ (maxSize_ (recentPool_ d) = 8192 →
     recentPool_ after = recentPool_ (adds ss newHistoryBigram)
     ∧ recent_ (recentPool_ after) = rev kept
     ∧ size (recentPool_ after) = Z.of_nat (length kept)
     ∧ (∀ w, unigramFreq (recentPool_ after) w = total (occurrences w) kept)
     ∧ (∀ w1 w2, bigramFreq (recentPool_ after) w1 w2
                 = total (key_occurrences (bigramKey w1 w2)) kept)
     ∧ finalPool_ after
       = fold_left (λ f s, final_add s f) evicted (finalPool_ d)
     ∧ (Z.of_nat (length fs) ≤ 8192 → finalPool_ after = finalPool_ d)).
Proof.
  intros Hmax Hss Hcount Htail. cbv zeta.
  set (d0 := mkPrivate (finalPool_ d) (clear (recentPool_ d)) (unknown_ d)).
  split.
  - unfold HistoryBigram_load, load. cbn [clear maxSize_].
    destruct (Z.eqb_spec (maxSize_ (recentPool_ d)) 0) as [|_]; [done|].
    rewrite unmarshall_marshall by lia.
    replace (Z.to_nat count)
      with (length ss + S (Z.to_nat count - length ss - 1))%nat by lia.
    change (clear (recentPool_ d)) with (recentPool_ d0).
    change (finalPool_ d) with (finalPool_ d0) at 1.
    rewrite load_sentences_saved by done.
    cbn [load_sentences]. rewrite Htail.
    assert (Hunk : unknown_ (adds ss d0) = unknown_ d) by exact (adds_unknown ss d0).
    destruct (adds ss d0) as [f r u]. cbn in Hunk. by subst u.
  - intros Hrm. pose proof capacity_Z as Hcap.
    assert (Hnew : recentPool_ (adds ss d0) = recentPool_ (adds ss newHistoryBigram)).
    { apply adds_recent_indep. unfold d0, clear. cbn [recentPool_]. by rewrite Hrm. }
    destruct (adds_split_history ss) as (Hrec & _ & Hu & Hb).
    destruct (adds_keep_invariants ss) as (Hsize & _).
    cbv zeta in Hrec, Hu, Hb, Hsize.
    destruct (adds_from_cleared d0 (filter (λ s, s ≠ []) ss)) as [_ Hfinal].
    { unfold d0, clear. cbn [recentPool_ maxSize_]. exact Hrm. }
    { reflexivity. }
    { apply filter_nonempty. }
    rewrite <- adds_filter in Hfinal.
    split_and!.
    + exact Hnew.
    + by rewrite Hnew.
    + rewrite Hnew, Hsize, Hrec, length_rev. done.
    + intros w. rewrite Hnew. apply Hu.
    + intros w1 w2. rewrite Hnew. apply Hb.
    + exact Hfinal.
    + intros Hle. rewrite Hfinal.
      replace (length (filter (λ s, s ≠ []) ss) - capacity)%nat with 0%nat by lia.
      by rewrite take_0.
Qed.

Lemma load_failure_keeps_read_sentences_witness :
  HistoryBigram_load
    (Stream.marshall 2 ++ flat_map save_sentence [["a"; "b"]]%string ++ [])
    newHistoryBigram
  = (None, adds [["a"; "b"]]%string
             (mkPrivate (finalPool_ newHistoryBigram)
                        (clear (recentPool_ newHistoryBigram))
                        (unknown_ newHistoryBigram))).
Proof.
  apply (load_failure_keeps_read_sentences newHistoryBigram 2 [["a"; "b"]]%string []).
  - discriminate.
  - repeat constructor; vm_compute; reflexivity.
  - simpl. lia.
  - reflexivity.
Defined.

(** C5 as it is stated fails: a stream that announces two sentences and
    holds only the record of [["a", "b"]] makes [load] fail, and the sentence
    is in the recent pool after the failure. *)
Lemma load_failure_not_empty_counterexample :
  let r := HistoryBigram_load
             (Stream.marshall 2 ++ save_sentence ["a"; "b"]%string)
             newHistoryBigram in
  fst r = None
  ∧ recent_ (recentPool_ (snd r)) = [["a"; "b"]]%string
  ∧ size (recentPool_ (snd r)) = 1
  ∧ unigramFreq (recentPool_ (snd r)) "a" = 1
  ∧ bigramFreq (recentPool_ (snd r)) "a" "b" = 1
  ∧ ¬ (size (recentPool_ (snd r)) = 0
       ∧ ∀ w, unigramFreq (recentPool_ (snd r)) w = 0).
Proof.
  vm_compute. split_and!; try reflexivity. intros [Hsize _]. discriminate Hsize.
Qed.
